(** * ccache-storage-http-cpp: a shallow embedding and its verified properties

    The helper bridges ccache's framed IPC protocol to an HTTP(S) key/value
    store.  This development embeds the pure and the state-passing parts of
    [config.cpp], [storage_client.cpp] and [ipc_server.cpp] and proves the
    properties of URL construction, completion classification, the
    conditional-PUT protocol, continuation delivery, request framing and the
    per-connection write queue.

    Conventions.
    - [std::string] is [string]; [std::vector<uint8_t>] is [list byte].
    - [size_t] and [uint64_t] are 64-bit (LP64 / LLP64) and modelled as [N];
      the one addition that takes a peer-chosen 64-bit operand is written with
      its wrap-around ([size_add]).
    - [std::unordered_map<CURL*, ...>] is a [gmap nat _]: a handle is its
      identity.
    - libcurl and libuv are the environment: what they return or deliver is
      an input of the model (scripts of return codes, completion messages). *)

From Stdlib Require Import ZArith NArith Lia List Ascii String Decimal DecimalString.
From Stdlib Require Import DecimalN.
From Stdlib.Strings Require Import Byte.
From stdpp Require Import base option list gmap strings.

Local Open Scope string_scope.

(* ===================================================================== *)
(** * Part I: the embedding                                               *)
(* ===================================================================== *)

(** ** Strings: the [std::string] operations the sources use *)

Module str.

(** [s.substr(pos, n)] for [pos <= s.size()]: at most [n] characters. *)
Definition substr (s : string) (pos n : nat) : string := String.substring pos n s.

(** [s.substr(pos)]: everything from [pos] on. *)
Definition substr_from (s : string) (pos : nat) : string :=
  String.substring pos (String.length s - pos) s.

(** [s.back()], defined for a non-empty string. *)
Fixpoint back (s : string) : option ascii :=
  match s with
  | EmptyString => None
  | String c EmptyString => Some c
  | String _ rest => back rest
  end.

Definition empty (s : string) : bool :=
  match s with EmptyString => true | _ => false end.

(** [s.find(c)]: index of the first occurrence, [None] for [npos]. *)
Fixpoint find (c : ascii) (s : string) : option nat :=
  match s with
  | EmptyString => None
  | String d rest => if Ascii.eqb d c then Some 0%nat else S <$> find c rest
  end.

(** [std::to_string] on an unsigned and on a signed integer. *)
Definition of_N (n : N) : string := NilZero.string_of_uint (N.to_uint n).
Definition of_Z (z : Z) : string := NilZero.string_of_int (Z.to_int z).

End str.

(** ** config.hpp / config.cpp *)

Module config.

Inductive UrlLayout :=
| BAZEL    (* ac/ + 64 hex digits *)
| FLAT     (* key directly appended *)
| SUBDIRS. (* first 2 chars / rest of key *)

Record Config := mkConfig {
  ipc_endpoint : string;
  url : string;
  idle_timeout_seconds : N;
  bearer_token : option string;
  layout : UrlLayout;
  headers : list (string * string);
}.

(** A default-constructed [Config]. *)
Definition Config_default : Config :=
  {| ipc_endpoint := ""; url := ""; idle_timeout_seconds := 0;
     bearer_token := None; layout := SUBDIRS; headers := [] |}.

Definition set_bearer_token (v : option string) (c : Config) : Config :=
  {| ipc_endpoint := ipc_endpoint c; url := url c;
     idle_timeout_seconds := idle_timeout_seconds c;
     bearer_token := v; layout := layout c; headers := headers c |}.

Definition set_layout (v : UrlLayout) (c : Config) : Config :=
  {| ipc_endpoint := ipc_endpoint c; url := url c;
     idle_timeout_seconds := idle_timeout_seconds c;
     bearer_token := bearer_token c; layout := v; headers := headers c |}.

Definition set_headers (v : list (string * string)) (c : Config) : Config :=
  {| ipc_endpoint := ipc_endpoint c; url := url c;
     idle_timeout_seconds := idle_timeout_seconds c;
     bearer_token := bearer_token c; layout := layout c; headers := v |}.

(** The process environment read by [std::getenv]. *)
Definition getenv (env : gmap string string) (name : string) : option string :=
  env !! name.

Definition UINT_MAX : N := 2 ^ 32 - 1.
Definition SIZE_MAX : N := 2 ^ 64 - 1.

(** [parse_int<T>] for an unsigned [T] with largest value [max]:
    [std::from_chars] accepts a non-empty run of decimal digits, fails on
    overflow, and the whole string has to be consumed. *)
Definition parse_int (max : N) (str : string) : option N :=
  match NilZero.uint_of_string str with
  | Some d => let value := N.of_uint d in
              if (value <=? max)%N then Some value else None
  | None => None
  end.

Definition parse_layout (str : string) : UrlLayout :=
  if String.eqb str "bazel" then BAZEL
  else if String.eqb str "flat" then FLAT
  else SUBDIRS.

(** Body of the attribute loop of [parse_config], for index [i]. *)
Definition parse_attr (env : gmap string string) (i : N) (config : Config)
  : option Config :=
  let key_env := "CRSH_ATTR_KEY_" ++ str.of_N i in
  let value_env := "CRSH_ATTR_VALUE_" ++ str.of_N i in
  match getenv env key_env with
  | None => None
  | Some key_str =>
    match getenv env value_env with
    | None => None
    | Some value_str =>
      if String.eqb key_str "bearer-token" then
        Some (set_bearer_token (Some value_str) config)
      else if String.eqb key_str "layout" then
        Some (set_layout (parse_layout value_str) config)
      else if String.eqb key_str "header" then
        match str.find "=" value_str with
        | Some eq_pos =>
          let header_name := str.substr value_str 0 eq_pos in
          let header_value := str.substr_from value_str (eq_pos + 1) in
          Some (set_headers (headers config ++ [(header_name, header_value)]) config)
        | None => Some config
        end
      else Some config
    end
  end.

(** [for (size_t i = ...; i < num_attr; ++i)] with [todo] iterations left. *)
Fixpoint parse_attrs (env : gmap string string) (todo : nat) (i : N)
    (config : Config) : option Config :=
  match todo with
  | O => Some config
  | S todo' =>
    match parse_attr env i config with
    | None => None
    | Some config' => parse_attrs env todo' (N.succ i) config'
    end
  end.

(** [getenv] followed by the "unset or empty" test. *)
Definition getenv_nonempty (env : gmap string string) (name : string)
  : option string :=
  match getenv env name with
  | Some s => if str.empty s then None else Some s
  | None => None
  end.

Definition parse_config (win32 : bool) (env : gmap string string) : option Config :=
  match getenv_nonempty env "CRSH_IPC_ENDPOINT" with
  | None => None
  | Some endpoint =>
    let endpoint := if win32 then "\\.\pipe\" ++ endpoint else endpoint in
    match getenv_nonempty env "CRSH_URL" with
    | None => None
    | Some u =>
      let idle_timeout := default "0" (getenv_nonempty env "CRSH_IDLE_TIMEOUT") in
      match parse_int UINT_MAX idle_timeout with
      | None => None
      | Some idle_val =>
        let num_attr_str := default "0" (getenv_nonempty env "CRSH_NUM_ATTR") in
        match parse_int SIZE_MAX num_attr_str with
        | None => None
        | Some num_attr =>
          parse_attrs env (N.to_nat num_attr) 0
            {| ipc_endpoint := endpoint; url := u;
               idle_timeout_seconds := idle_val;
               bearer_token := None; layout := SUBDIRS; headers := [] |}
        end
      end
    end
  end.

End config.

(** ** storage_client.cpp: URL construction *)

Module url.
Import config.

Definition sha256_hex_size : nat := 64.

(** The origin with a ['/'] appended unless it already ends in one. *)
Definition base_url (config : Config) : string :=
  let base_url := url config in
  if str.empty base_url || negb (bool_decide (str.back base_url = Some "/"%char))
  then base_url ++ "/"
  else base_url.

(** The [switch (config.layout)] of [build_url]: what is streamed after the
    base URL. *)
Definition layout_part (layout : UrlLayout) (hex_key : string) : string :=
  match layout with
  | BAZEL =>
      "ac/" ++
      (if (sha256_hex_size <=? String.length hex_key)%nat
       then str.substr hex_key 0 sha256_hex_size
       else hex_key ++ str.substr hex_key 0 (sha256_hex_size - String.length hex_key))
  | FLAT => hex_key
  | SUBDIRS =>
      if (2 <=? String.length hex_key)%nat
      then str.substr hex_key 0 2 ++ "/" ++ str.substr_from hex_key 2
      else hex_key
  end.

Definition build_url (config : Config) (hex_key : string) : string :=
  base_url config ++ layout_part (layout config) hex_key.

End url.

(** ** storage_client.hpp / storage_client.cpp: the HTTP request engine *)

Module storage.
Import config url.

Inductive StorageResult := OK | NOOP | ERROR.

Record StorageResponse := mkResponse {
  result : StorageResult;
  error : string;
  data : list byte;
}.

Inductive HttpOperation := GET | PUT | DELETE | HEAD.

Definition CURLE_OK : Z := 0.

(** One [CURLMsg] read by [curl_multi_info_read], together with what
    [curl_easy_getinfo] and the request's error buffer hold at that time. *)
Record CURLMsg := mkMsg {
  msg_done : bool;          (* msg->msg == CURLMSG_DONE *)
  easy_handle : nat;        (* msg->easy_handle *)
  msg_result : Z;           (* msg->data.result, a CURLcode *)
  response_code : Z;        (* CURLINFO_RESPONSE_CODE, a long *)
  error_buf : string;       (* request->error_buf, filled by libcurl *)
}.

Section client.
(** [K]: the continuations the callers of the client pass in. *)
Variable K : Type.
(** libcurl's [curl_easy_strerror]. *)
Variable curl_easy_strerror : Z -> string.

(** [StorageCallback], defunctionalised: a caller's continuation, or the
    lambda [put] installs on its HEAD request, which captures the key,
    the payload and the caller's callback. *)
Inductive StorageCallback :=
| Caller (k : K)
| HeadCheck (hex_key : string) (data : list byte) (callback : StorageCallback).

Record HttpRequest := mkRequest {
  operation : HttpOperation;
  url : string;
  request_data : list byte;   (* For PUT *)
  response_data : list byte;
  callback : StorageCallback;
  headers : list string;      (* the curl_slist *)
}.

Record StorageClient := mkClient {
  _config : Config;
  _active_requests : gmap nat HttpRequest;
  (** libcurl: whether the coming [curl_easy_init] calls return a handle
      ([true]) or [nullptr]; they succeed once the script is used up. *)
  easy_init_script : list bool;
  (** The requests handed to [curl_multi_add_handle], oldest first. *)
  multi_added : list (nat * HttpOperation * string);
}.

(** What a call hands to the callers' continuations, in order. *)
Definition Calls : Type := list (K * StorageResponse).

Definition set_response_data (v : list byte) (r : HttpRequest) : HttpRequest :=
  {| operation := operation r; url := url r; request_data := request_data r;
     response_data := v; callback := callback r; headers := headers r |}.

Definition set_headers (v : list string) (r : HttpRequest) : HttpRequest :=
  {| operation := operation r; url := url r; request_data := request_data r;
     response_data := response_data r; callback := callback r; headers := v |}.

Definition set_active_requests (v : gmap nat HttpRequest) (s : StorageClient)
  : StorageClient :=
  {| _config := _config s; _active_requests := v;
     easy_init_script := easy_init_script s; multi_added := multi_added s |}.

(** [curl_easy_init]: a handle that is not in use, or [nullptr]. *)
Definition curl_easy_init (s : StorageClient) : option nat * StorageClient :=
  let handle := fresh (dom (_active_requests s)) in
  match easy_init_script s with
  | [] => (Some handle, s)
  | ok :: script =>
      (if ok : bool then Some handle else None,
       {| _config := _config s; _active_requests := _active_requests s;
          easy_init_script := script; multi_added := multi_added s |})
  end.

(** The header list [create_easy_handle] builds. *)
Definition request_headers (config : Config) : list string :=
  match bearer_token config with
  | Some token => ["Authorization: Bearer " ++ token]
  | None => []
  end
  ++ map (fun header => fst header ++ ": " ++ snd header) (config.headers config).

Definition create_easy_handle (request : HttpRequest) (s : StorageClient)
  : option (nat * HttpRequest) * StorageClient :=
  match curl_easy_init s with
  | (None, s') => (None, s')
  | (Some handle, s') =>
      (Some (handle, set_headers (request_headers (_config s)) request), s')
  end.

(** [_active_requests[handle] = std::move(request);
     curl_multi_add_handle(_multi_handle, handle);] *)
Definition add_request (handle : nat) (request : HttpRequest) (s : StorageClient)
  : StorageClient :=
  {| _config := _config s;
     _active_requests := <[handle := request]> (_active_requests s);
     easy_init_script := easy_init_script s;
     multi_added := multi_added s ++ [(handle, operation request, url request)] |}.

Definition handle_failure : StorageResponse :=
  {| result := ERROR; error := "Failed to create curl handle"; data := [] |}.

(** [do_put], with the invocation of its callback passed in as
    [call_back]: [invoke] below is recursive in the callback and calls
    [do_put] from the HEAD lambda. *)
Definition do_put_with
    (call_back : StorageResponse -> StorageClient -> StorageClient * Calls)
    (hex_key : string) (data : list byte) (callback : StorageCallback)
    (s : StorageClient) : StorageClient * Calls :=
  let request :=
    {| operation := PUT; url := build_url (_config s) hex_key;
       request_data := data; response_data := [];
       callback := callback; headers := [] |} in
  match create_easy_handle request s with
  | (None, s') => call_back handle_failure s'
  | (Some (handle, request'), s') => (add_request handle request' s', [])
  end.

(** Running a [StorageCallback] on a response. *)
Fixpoint invoke (cb : StorageCallback) (response : StorageResponse)
    (s : StorageClient) : StorageClient * Calls :=
  match cb with
  | Caller k => (s, [(k, response)])
  | HeadCheck hex_key data callback =>
      match result response with
      | NOOP =>
          (* resource doesn't exist, proceeding with PUT *)
          do_put_with (invoke callback) hex_key data callback s
      | OK =>
          (* resource exists, not overwriting *)
          invoke callback {| result := NOOP; error := ""; data := [] |} s
      | ERROR => invoke callback response s
      end
  end.

Definition do_put (hex_key : string) (data : list byte)
    (callback : StorageCallback) (s : StorageClient) : StorageClient * Calls :=
  do_put_with (invoke callback) hex_key data callback s.

Definition get (hex_key : string) (callback : StorageCallback)
    (s : StorageClient) : StorageClient * Calls :=
  let request :=
    {| operation := GET; url := build_url (_config s) hex_key;
       request_data := []; response_data := [];
       callback := callback; headers := [] |} in
  match create_easy_handle request s with
  | (None, s') => invoke callback handle_failure s'
  | (Some (handle, request'), s') => (add_request handle request' s', [])
  end.

Definition put (hex_key : string) (data : list byte) (overwrite : bool)
    (callback : StorageCallback) (s : StorageClient) : StorageClient * Calls :=
  if overwrite then do_put hex_key data callback s
  else
    let request :=
      {| operation := HEAD; url := build_url (_config s) hex_key;
         request_data := []; response_data := [];
         callback := HeadCheck hex_key data callback; headers := [] |} in
    match create_easy_handle request s with
    | (None, s') => invoke callback handle_failure s'
    | (Some (handle, request'), s') => (add_request handle request' s', [])
    end.

Definition remove (hex_key : string) (callback : StorageCallback)
    (s : StorageClient) : StorageClient * Calls :=
  let request :=
    {| operation := DELETE; url := build_url (_config s) hex_key;
       request_data := []; response_data := [];
       callback := callback; headers := [] |} in
  match create_easy_handle request s with
  | (None, s') => invoke callback handle_failure s'
  | (Some (handle, request'), s') => (add_request handle request' s', [])
  end.

(** [write_callback]: libcurl delivers [bytes] of the response body of the
    request behind [handle]. *)
Definition write_callback (handle : nat) (bytes : list byte) (s : StorageClient)
  : StorageClient :=
  set_active_requests
    (alter (fun r => set_response_data (response_data r ++ bytes) r) handle
           (_active_requests s)) s.

Definition http_error (http_code : Z) : string := "HTTP " ++ str.of_Z http_code.

(** The classification in [check_multi_info]: the [StorageResponse] the
    callback of [request] receives for message [msg]. *)
Definition completion (request : HttpRequest) (msg : CURLMsg) : StorageResponse :=
  let http_code := response_code msg in
  if negb (msg_result msg =? CURLE_OK)%Z then
    {| result := ERROR;
       error := if str.empty (error_buf msg)
                then curl_easy_strerror (msg_result msg) else error_buf msg;
       data := response_data request |}
  else
    match operation request with
    | GET =>
        if (http_code =? 200)%Z then
          {| result := OK; error := ""; data := response_data request |}
        else if (http_code =? 404)%Z then
          {| result := NOOP; error := ""; data := [] |}
        else
          {| result := ERROR; error := http_error http_code;
             data := response_data request |}
    | HEAD =>
        if (http_code =? 200)%Z then
          {| result := OK; error := ""; data := response_data request |}
        else if (http_code =? 404)%Z then
          {| result := NOOP; error := ""; data := response_data request |}
        else
          {| result := ERROR; error := http_error http_code;
             data := response_data request |}
    | PUT =>
        if ((200 <=? http_code) && (http_code <? 300))%Z then
          {| result := OK; error := ""; data := response_data request |}
        else if ((http_code =? 412) || (http_code =? 409))%Z then
          {| result := NOOP; error := ""; data := response_data request |}
        else
          {| result := ERROR; error := http_error http_code;
             data := response_data request |}
    | DELETE =>
        if ((200 <=? http_code) && (http_code <? 300))%Z then
          {| result := OK; error := ""; data := response_data request |}
        else if (http_code =? 404)%Z then
          {| result := NOOP; error := ""; data := response_data request |}
        else
          {| result := ERROR; error := http_error http_code;
             data := response_data request |}
    end.

(** One turn of the [while] loop of [check_multi_info]. *)
Definition handle_msg (msg : CURLMsg) (s : StorageClient) : StorageClient * Calls :=
  if negb (msg_done msg) then (s, [])
  else
    let handle := easy_handle msg in
    match _active_requests s !! handle with
    | None => (s, [])
    | Some req =>
        invoke (callback req) (completion req msg)
               (set_active_requests (delete handle (_active_requests s)) s)
    end.

(** [check_multi_info] on the messages libcurl has queued. *)
Fixpoint check_multi_info (msgs : list CURLMsg) (s : StorageClient)
  : StorageClient * Calls :=
  match msgs with
  | [] => (s, [])
  | msg :: msgs' =>
      let '(s1, calls1) := handle_msg msg s in
      let '(s2, calls2) := check_multi_info msgs' s1 in
      (s2, (calls1 ++ calls2)%list)
  end.

(** What the loop and the callers do to the client. *)
Inductive Event :=
| EvGet (hex_key : string) (k : K)
| EvPut (hex_key : string) (data : list byte) (overwrite : bool) (k : K)
| EvRemove (hex_key : string) (k : K)
| EvBody (handle : nat) (bytes : list byte)      (* write_callback *)
| EvDone (msgs : list CURLMsg).                  (* on_poll / on_timeout *)

Definition step (ev : Event) (s : StorageClient) : StorageClient * Calls :=
  match ev with
  | EvGet hex_key k => get hex_key (Caller k) s
  | EvPut hex_key data overwrite k => put hex_key data overwrite (Caller k) s
  | EvRemove hex_key k => remove hex_key (Caller k) s
  | EvBody handle bytes => (write_callback handle bytes s, [])
  | EvDone msgs => check_multi_info msgs s
  end.

Fixpoint run (evs : list Event) (s : StorageClient) : StorageClient * Calls :=
  match evs with
  | [] => (s, [])
  | ev :: evs' =>
      let '(s1, calls1) := step ev s in
      let '(s2, calls2) := run evs' s1 in
      (s2, (calls1 ++ calls2)%list)
  end.

(** *** Accounting of continuations *)

Context `{EqDecision K}.

(** How often the caller's continuation [k] sits inside a callback. *)
Fixpoint holds (k : K) (cb : StorageCallback) : nat :=
  match cb with
  | Caller k' => if decide (k' = k) then 1 else 0
  | HeadCheck _ _ callback => holds k callback
  end.

(** How often [k] is held by the requests in flight. *)
Definition pending (k : K) (s : StorageClient) : nat :=
  sum_list_with (fun hr => holds k (callback (snd hr)))
                (map_to_list (_active_requests s)).

(** How often [k] has been invoked in [calls]. *)
Definition invocations (k : K) (calls : Calls) : nat :=
  sum_list_with (fun call => if decide (fst call = k) then 1 else 0)%nat calls.

(** How often the event [ev] schedules an operation with continuation [k]. *)
Definition schedules (k : K) (ev : Event) : nat :=
  match ev with
  | EvGet _ k' | EvPut _ _ _ k' | EvRemove _ k' => if decide (k' = k) then 1 else 0
  | EvBody _ _ | EvDone _ => 0
  end.

Definition scheduled (k : K) (evs : list Event) : nat :=
  sum_list_with (schedules k) evs.

End client.

Arguments Caller {K} k.
Arguments HeadCheck {K} hex_key data callback.
Arguments mkRequest {K}.
Arguments operation {K}.
Arguments url {K}.
Arguments request_data {K}.
Arguments response_data {K}.
Arguments callback {K}.
Arguments headers {K}.
Arguments mkClient {K}.
Arguments _config {K}.
Arguments _active_requests {K}.
Arguments easy_init_script {K}.
Arguments multi_added {K}.
Arguments set_response_data {K}.
Arguments set_headers {K}.
Arguments set_active_requests {K}.
Arguments curl_easy_init {K}.
Arguments create_easy_handle {K}.
Arguments add_request {K}.
Arguments do_put_with {K}.
Arguments invoke {K}.
Arguments do_put {K}.
Arguments get {K}.
Arguments put {K}.
Arguments remove {K}.
Arguments write_callback {K}.
Arguments completion {K}.
Arguments handle_msg {K}.
Arguments check_multi_info {K}.
Arguments EvGet {K}.
Arguments EvPut {K}.
Arguments EvRemove {K}.
Arguments EvBody {K}.
Arguments EvDone {K}.
Arguments step {K}.
Arguments run {K}.
Arguments holds {K _}.
Arguments pending {K _}.
Arguments invocations {K _}.
Arguments schedules {K _}.
Arguments scheduled {K _}.

End storage.

(** ** ipc_server.cpp: framing, dispatch and the per-connection write queue *)

Module ipc.
Import config storage.

Definition PROTOCOL_VERSION : byte := x01.
Definition CAP_GET_PUT_REMOVE_STOP : byte := x00.

Definition STATUS_OK : byte := x00.
Definition STATUS_NOOP : byte := x01.
Definition STATUS_ERR : byte := x02.

Definition REQ_GET : byte := x00.
Definition REQ_PUT : byte := x01.
Definition REQ_REMOVE : byte := x02.
Definition REQ_STOP : byte := x03.

Definition PUT_FLAG_OVERWRITE : byte := x01.
Definition MAX_MSG_LEN : nat := 255.

(** A [uint8_t] from a number, truncating. *)
Definition byte_of_N (n : N) : byte := default x00 (Byte.of_N (n mod 256)).

Definition hex_digit (n : N) : ascii :=
  default "0"%char (String.get (N.to_nat n) "0123456789abcdef").

(** [std::hex << std::setfill('0') << std::setw(2)] on every byte. *)
Fixpoint format_hex (data : list byte) : string :=
  match data with
  | [] => ""
  | b :: rest =>
      String (hex_digit (Byte.to_N b / 16))
        (String (hex_digit (Byte.to_N b mod 16)) (format_hex rest))
  end.

(** Little-endian value of a run of bytes, and the [n] low bytes of a value. *)
Fixpoint le_value (bytes : list byte) : N :=
  match bytes with
  | [] => 0
  | b :: rest => Byte.to_N b + 256 * le_value rest
  end%N.

Fixpoint le_bytes (n : nat) (value : N) : list byte :=
  match n with
  | O => []
  | S n' => byte_of_N value :: le_bytes n' (value / 256)
  end.

(** [size_t + uint64_t] in 64-bit unsigned arithmetic. *)
Definition size_add (a b : N) : N := ((a + b) mod 2 ^ 64)%N.

(** The libuv stream behind [ClientConnection::handle]. *)
Record UvStream := mkStream {
  (** libuv: return codes of the coming [uv_write] calls; they return 0
      once the script is used up. *)
  uv_write_script : list Z;
  (** The blobs [uv_write] has accepted, oldest first. *)
  written : list (list byte);
  (** Accepted writes whose [on_write_complete] has not run yet. *)
  write_reqs : nat;
}.

Record ClientConnection := mkConnection {
  handle : UvStream;
  read_buf : list byte;
  write_queue : list (list byte);
  writing : bool;
}.

Definition set_read_buf (v : list byte) (c : ClientConnection) : ClientConnection :=
  {| handle := handle c; read_buf := v;
     write_queue := write_queue c; writing := writing c |}.

(** [uv_write] on the connection's stream.  (The cast of the blob size to
    [unsigned int] is the identity for blobs below 4 GiB.) *)
Definition uv_write (data : list byte) (stream : UvStream) : Z * UvStream :=
  let r := hd 0%Z (uv_write_script stream) in
  (r, {| uv_write_script := tl (uv_write_script stream);
         written := if (r =? 0)%Z then (written stream ++ [data])%list
                    else written stream;
         write_reqs := if (r =? 0)%Z then S (write_reqs stream)
                       else write_reqs stream |}).

Definition flush_write_queue (client : ClientConnection) : ClientConnection :=
  if writing client then client
  else
    match write_queue client with
    | [] => client
    | data :: queue =>
        let '(r, stream) := uv_write data (handle client) in
        {| handle := stream; read_buf := read_buf client; write_queue := queue;
           writing := if (r =? 0)%Z then true else false |}
    end.

(** Modelled from the spec: [IpcServer::send_response], which ipc_server.cpp
    calls and does not define (its definition, with ipc_server.hpp, is
    missing).  Per the writing discipline of the specification, a response
    blob is appended to the client's write-queue and the drainer is
    entered. *)
Definition send_response (data : list byte) (client : ClientConnection)
  : ClientConnection :=
  flush_write_queue
    {| handle := handle client; read_buf := read_buf client;
       write_queue := (write_queue client ++ [data])%list;
       writing := writing client |}.

(** [on_write_complete]; libuv runs it once for an accepted write. *)
Definition on_write_complete (status : Z) (client : ClientConnection)
  : ClientConnection :=
  flush_write_queue
    {| handle := handle client; read_buf := read_buf client;
       write_queue := write_queue client; writing := false |}.

Definition error_blob (error : string) : list byte :=
  let msg_len := Nat.min (String.length error) MAX_MSG_LEN in
  STATUS_ERR :: byte_of_N (N.of_nat msg_len)
    :: take msg_len (list_byte_of_string error).

Definition send_simple_response (operation : string) (response : StorageResponse)
    (client : ClientConnection) : ClientConnection :=
  match result response with
  | OK => send_response [STATUS_OK] client
  | NOOP => send_response [STATUS_NOOP] client
  | ERROR => send_response (error_blob (error response)) client
  end.

(** The three lambdas [process_client_data] passes to the storage client. *)
Inductive Continuation := GetReply | PutReply | RemoveReply.

Global Instance Continuation_eq_dec : EqDecision Continuation.
Proof. solve_decision. Defined.

Section server.
(** Whether [memcpy] of a [uint64_t] is big-endian on this host. *)
Variable big_endian : bool.

Definition read_u64_host_byte_order (data : list byte) : N :=
  let raw := take 8 data in
  le_value (if big_endian then rev raw else raw).

(** The eight bytes [write_u64_host_byte_order] appends. *)
Definition u64_host_byte_order (value : N) : list byte :=
  let raw := le_bytes 8 value in
  if big_endian then rev raw else raw.

Definition get_header (size : nat) : list byte :=
  STATUS_OK :: u64_host_byte_order (N.of_nat size).

(** Running a continuation on the connection it captured. *)
Definition reply (k : Continuation) (response : StorageResponse)
    (client : ClientConnection) : ClientConnection :=
  match k with
  | GetReply =>
      match result response with
      | OK =>
          send_response (data response)
            (send_response (get_header (length (data response))) client)
      | _ => send_simple_response "GET" response client
      end
  | PutReply => send_simple_response "PUT" response client
  | RemoveReply => send_simple_response "REMOVE" response client
  end.

Definition deliver (calls : Calls Continuation) (client : ClientConnection)
  : ClientConnection :=
  foldl (fun c call => reply (fst call) (snd call) c) client calls.

(** What one turn of the loop of [process_client_data] finds at the head
    of the accumulator, with the final [offset] of a complete record.  The
    turn has no effect before it has read the whole record, so reading
    ([decode]) and acting ([process_loop]) are written one after the other. *)
Inductive Decoded :=
| Incomplete
| Stop
| UnknownType (request_type : byte)
| Get (hex_key : string) (offset : N)
| Put (hex_key : string) (value : list byte) (overwrite : bool) (offset : N)
| Remove (hex_key : string) (offset : N)
| OutOfRange.   (* the range constructor of [value] leaves the buffer *)

Definition decode (buf : list byte) : Decoded :=
  match buf with
  | [] => Incomplete   (* not reached: the loop tests [buf.empty()] first *)
  | request_type :: _ =>
    let len := N.of_nat (length buf) in
    let offset := 1%N in
    if Byte.eqb request_type REQ_STOP then Stop
    else if negb (Byte.eqb request_type REQ_GET)
            && negb (Byte.eqb request_type REQ_PUT)
            && negb (Byte.eqb request_type REQ_REMOVE) then
      UnknownType request_type
    else if (len <? offset + 1)%N then Incomplete
    else
      let key_len := Byte.to_N (nth (N.to_nat offset) buf x00) in
      let offset := (offset + 1)%N in
      if (len <? offset + key_len)%N then Incomplete
      else
        let hex_key :=
          format_hex (take (N.to_nat key_len) (drop (N.to_nat offset) buf)) in
        let offset := (offset + key_len)%N in
        if Byte.eqb request_type REQ_GET then Get hex_key offset
        else if Byte.eqb request_type REQ_PUT then
          if (len <? offset + 1)%N then Incomplete
          else
            let flags := nth (N.to_nat offset) buf x00 in
            let offset := (offset + 1)%N in
            if (len <? offset + 8)%N then Incomplete
            else
              let value_len :=
                read_u64_host_byte_order (drop (N.to_nat offset) buf) in
              let offset := (offset + 8)%N in
              if (len <? size_add offset value_len)%N then Incomplete
              else if (len <? offset + value_len)%N then OutOfRange
              else
                let value :=
                  take (N.to_nat value_len) (drop (N.to_nat offset) buf) in
                let offset := size_add offset value_len in
                let overwrite :=
                  negb (N.land (Byte.to_N flags) (Byte.to_N PUT_FLAG_OVERWRITE)
                        =? 0)%N in
                Put hex_key value overwrite offset
        else Remove hex_key offset
  end.

Record IpcServer := mkServer {
  client : ClientConnection;                      (* one accepted peer *)
  _storage_client : StorageClient Continuation;
  loop_stopped : bool;                            (* uv_stop has been called *)
}.

(** A call either returns or leaves defined behaviour (it reads outside the
    accumulator). *)
Inductive Outcome :=
| Returns (srv : IpcServer)
| Undefined.

Definition stop (srv : IpcServer) : IpcServer :=
  {| client := client srv; _storage_client := _storage_client srv;
     loop_stopped := true |}.

(** After a storage call of one loop turn: the continuations it ran have
    written to the connection, then [buf.erase(begin, begin + offset)]. *)
Definition dispatched (offset : N) (srv : IpcServer)
    (r : StorageClient Continuation * Calls Continuation) : IpcServer :=
  let client' := deliver (snd r) (client srv) in
  {| client := set_read_buf (drop (N.to_nat offset) (read_buf client')) client';
     _storage_client := fst r;
     loop_stopped := loop_stopped srv |}.

(** The [while (!buf.empty())] loop, [turns] bounding its iterations. *)
Fixpoint process_loop (turns : nat) (srv : IpcServer) : Outcome :=
  match turns with
  | O => Returns srv
  | S turns' =>
    let buf := read_buf (client srv) in
    match buf with
    | [] => Returns srv
    | _ :: _ =>
      match decode buf with
      | Incomplete => Returns srv
      | Stop =>
          Returns (stop
            {| client := send_response [STATUS_OK]
                           (set_read_buf (drop 1 buf) (client srv));
               _storage_client := _storage_client srv;
               loop_stopped := loop_stopped srv |})
      | UnknownType _ => Returns (stop srv)
      | OutOfRange => Undefined
      | Get hex_key offset =>
          process_loop turns'
            (dispatched offset srv
               (storage.get hex_key (Caller GetReply)
                  (_storage_client srv)))
      | Put hex_key value overwrite offset =>
          process_loop turns'
            (dispatched offset srv
               (storage.put hex_key value overwrite (Caller PutReply)
                  (_storage_client srv)))
      | Remove hex_key offset =>
          process_loop turns'
            (dispatched offset srv
               (storage.remove hex_key (Caller RemoveReply)
                  (_storage_client srv)))
      end
    end
  end.

(** Every turn that goes on erases at least two bytes, so the length of
    the accumulator bounds the number of turns. *)
Definition process_client_data (srv : IpcServer) : Outcome :=
  process_loop (length (read_buf (client srv))) srv.

(** libcurl's [curl_easy_strerror]. *)
Variable curl_easy_strerror : Z -> string.

(** What the loop delivers to the server.  [uv_stop] lets the loop finish the
    iteration it is in, so events can still follow a stop; timers are not
    modelled. *)
Inductive ServerEvent :=
| ClientRead (bytes : list byte)                   (* on_client_read, nread > 0 *)
| WriteComplete (status : Z)                       (* on_write_complete *)
| HttpBody (handle : nat) (bytes : list byte)      (* write_callback *)
| HttpDone (msgs : list CURLMsg).                  (* on_poll / on_timeout *)

Definition on_client_read (bytes : list byte) (srv : IpcServer) : Outcome :=
  process_client_data
    {| client := set_read_buf (read_buf (client srv) ++ bytes)%list (client srv);
       _storage_client := _storage_client srv;
       loop_stopped := loop_stopped srv |}.

Definition server_step (ev : ServerEvent) (srv : IpcServer) : Outcome :=
  match ev with
  | ClientRead bytes => on_client_read bytes srv
  | WriteComplete status =>
      let c := client srv in
      match write_reqs (handle c) with
      | O => Returns srv   (* no write is outstanding: libuv has nothing to report *)
      | S n =>
          Returns
            {| client :=
                 on_write_complete status
                   {| handle := {| uv_write_script := uv_write_script (handle c);
                                   written := written (handle c);
                                   write_reqs := n |};
                      read_buf := read_buf c; write_queue := write_queue c;
                      writing := writing c |};
               _storage_client := _storage_client srv;
               loop_stopped := loop_stopped srv |}
      end
  | HttpBody h bytes =>
      Returns
        {| client := client srv;
           _storage_client := write_callback h bytes (_storage_client srv);
           loop_stopped := loop_stopped srv |}
  | HttpDone msgs =>
      let r := check_multi_info curl_easy_strerror msgs
                 (_storage_client srv) in
      Returns
        {| client := deliver (snd r) (client srv);
           _storage_client := fst r;
           loop_stopped := loop_stopped srv |}
  end.

Fixpoint server_run (evs : list ServerEvent) (srv : IpcServer) : Outcome :=
  match evs with
  | [] => Returns srv
  | ev :: evs' =>
      match server_step ev srv with
      | Returns srv' => server_run evs' srv'
      | Undefined => Undefined
      end
  end.

End server.

(** *** The write side of one connection under an arbitrary schedule *)

(** What can happen to the write side: a blob is handed to [send_response],
    or libuv reports a finished write. *)
Inductive WriteEvent :=
| Send (data : list byte)
| Completed (status : Z).

Definition write_step (ev : WriteEvent) (client : ClientConnection)
  : ClientConnection :=
  match ev with
  | Send data => send_response data client
  | Completed status =>
      match write_reqs (handle client) with
      | O => client
      | S n =>
          on_write_complete status
            {| handle := {| uv_write_script := uv_write_script (handle client);
                            written := written (handle client);
                            write_reqs := n |};
               read_buf := read_buf client; write_queue := write_queue client;
               writing := writing client |}
      end
  end.

Definition write_run (evs : list WriteEvent) (client : ClientConnection)
  : ClientConnection :=
  foldl (fun c ev => write_step ev c) client evs.

(** The blobs a schedule hands to [send_response], in order. *)
Definition sent (evs : list WriteEvent) : list (list byte) :=
  omap (fun ev => match ev with Send data => Some data | Completed _ => None end) evs.

(** The write side is in order with respect to [all], the blobs handed to
    [send_response] so far: the writing flag is set exactly when one write
    is outstanding, the queue is the tail of [all], and what [uv_write]
    accepted is, in order, among the blobs before that tail. *)
Definition queue_inv (all : list (list byte)) (c : ClientConnection) : Prop :=
  (writing c = true /\ write_reqs (handle c) = 1%nat
   \/ writing c = false /\ write_reqs (handle c) = 0%nat)
  /\ exists done, all = (done ++ write_queue c)%list
                  /\ written (handle c) `sublist_of` done.

(** No [uv_write] fails from here on, and nothing was dropped so far. *)
Definition lossless (all : list (list byte)) (c : ClientConnection) : Prop :=
  Forall (fun r => r = 0%Z) (uv_write_script (handle c))
  /\ (written (handle c) ++ write_queue c)%list = all.

(** A connection as [on_new_connection] makes it, before the greeting. *)
Definition new_connection (script : list Z) : ClientConnection :=
  {| handle := {| uv_write_script := script; written := []; write_reqs := 0 |};
     read_buf := []; write_queue := []; writing := false |}.

End ipc.

(** ** Vocabulary of the specification *)

Module spec.

(** "Ends with exactly one [/]": the origin without its trailing slashes,
    then one slash.  This follows the words of the specification, to be
    compared with [url.base_url]. *)
Fixpoint strip_trailing_slashes (s : string) : string :=
  match s with
  | EmptyString => EmptyString
  | String c rest =>
      match strip_trailing_slashes rest with
      | EmptyString => if Ascii.eqb c "/" then EmptyString else String c EmptyString
      | rest' => String c rest'
      end
  end.

Definition origin_with_exactly_one_slash (origin : string) : string :=
  strip_trailing_slashes origin ++ "/".

(** The request records of the wire protocol, and their bytes. *)
Inductive Request :=
| GetRequest (key : list byte)
| PutRequest (key : list byte) (flags : byte) (value : list byte)
| RemoveRequest (key : list byte)
| StopRequest.

Definition record (big_endian : bool) (r : Request) : list byte :=
  match r with
  | GetRequest key => ipc.REQ_GET :: ipc.byte_of_N (N.of_nat (length key)) :: key
  | PutRequest key flags value =>
      ipc.REQ_PUT :: ipc.byte_of_N (N.of_nat (length key))
        :: (key ++ flags
              :: ipc.u64_host_byte_order big_endian (N.of_nat (length value))
              ++ value)%list
  | RemoveRequest key =>
      ipc.REQ_REMOVE :: ipc.byte_of_N (N.of_nat (length key)) :: key
  | StopRequest => [ipc.REQ_STOP]
  end.

(** The key length fits its byte. *)
Definition key_fits (r : Request) : Prop :=
  match r with
  | GetRequest key | PutRequest key _ _ | RemoveRequest key =>
      (length key <= 255)%nat
  | StopRequest => True
  end.

(** What the server is to make of a record that ends at [offset]. *)
Definition decoded (r : Request) (offset : N) : ipc.Decoded :=
  match r with
  | GetRequest key => ipc.Get (ipc.format_hex key) offset
  | PutRequest key flags value =>
      ipc.Put (ipc.format_hex key) value (N.testbit (Byte.to_N flags) 0) offset
  | RemoveRequest key => ipc.Remove (ipc.format_hex key) offset
  | StopRequest => ipc.Stop
  end.

End spec.

(** ** Concrete inputs of the scenarios *)

Module ex.
Import config url storage ipc.

Definition config_of (layout : UrlLayout) (origin : string) : Config :=
  {| ipc_endpoint := "/tmp/crsh.sock"; config.url := origin;
     idle_timeout_seconds := 0; bearer_token := None;
     layout := layout; config.headers := [] |}.

Definition env_unknown_attribute : gmap string string :=
  <["CRSH_IPC_ENDPOINT" := "/tmp/crsh.sock"]>
    (<["CRSH_URL" := "https://c.example"]>
       (<["CRSH_NUM_ATTR" := "2"]>
          (<["CRSH_ATTR_KEY_0" := "compression"]>
             (<["CRSH_ATTR_VALUE_0" := "zstd"]>
                (<["CRSH_ATTR_KEY_1" := "layout"]>
                   (<["CRSH_ATTR_VALUE_1" := "flat"]> ∅)))))).

(** A client for origin [https://c.example/] whose coming [curl_easy_init]
    calls follow [script]; the callers' continuations are numbers. *)
Definition storage_client (layout : UrlLayout) (script : list bool)
  : StorageClient nat :=
  {| _config := config_of layout "https://c.example/"; _active_requests := ∅;
     easy_init_script := script; multi_added := [] |}.

Definition strerror (code : Z) : string := "curl error " ++ str.of_Z code.

(** A DONE message without transport error and with HTTP status [code]. *)
Definition done (handle : nat) (code : Z) : CURLMsg :=
  {| msg_done := true; easy_handle := handle; msg_result := CURLE_OK;
     response_code := code; error_buf := "" |}.

(** After [get("abcdef", 7)] and one body byte ["X"]. *)
Definition get_in_flight : StorageClient nat :=
  write_callback 0 ["X"%byte]
    (fst (get "abcdef" (Caller 7%nat) (storage_client SUBDIRS []))).

(** After [put("ab", payload, overwrite = false, 7)]: the HEAD is in flight. *)
Definition head_in_flight : StorageClient nat :=
  fst (put "ab" [x2a] false (Caller 7%nat) (storage_client FLAT [])).

Definition head_request : HttpRequest nat :=
  {| operation := HEAD; storage.url := "https://c.example/ab";
     request_data := []; response_data := [];
     callback := HeadCheck "ab" [x2a] (Caller 7%nat); storage.headers := [] |}.

(** A server with one fresh connection. *)
Definition server : IpcServer :=
  {| client := new_connection [];
     _storage_client :=
       {| _config := config_of SUBDIRS "https://c.example/"; _active_requests := ∅;
          easy_init_script := []; multi_added := [] |};
     loop_stopped := false |}.

(** GET of key [aa] and GET of key [bb], in one read. *)
Definition two_gets : list byte := [x00; x01; xaa; x00; x01; xbb].

(** A PUT record with an empty key whose value length field holds 2^64 - 1. *)
Definition put_with_wrapping_length : list byte :=
  [x01; x00; x00; xff; xff; xff; xff; xff; xff; xff; xff].

End ex.

(** ** storage_client.cpp: the upload side of a PUT *)

Module upload.

(** The two fields of an [HttpRequest] that [read_callback] works on. *)
Record Upload := mkUpload {
  request_data : list byte;
  upload_pos : N;
}.

(** [read_callback(ptr, size, nmemb, request)]: the bytes copied to [ptr]
    (their number is the return value) and the request afterwards. *)
Definition read_callback (size nmemb : N) (request : Upload) : list byte * Upload :=
  let max_bytes := ((size * nmemb) mod 2 ^ 64)%N in
  let data := request_data request in
  let data_size := N.of_nat (length data) in
  let remaining :=
    if (upload_pos request <? data_size)%N
    then (data_size - upload_pos request)%N else 0%N in
  let to_copy := N.min remaining max_bytes in
  if (0 <? to_copy)%N then
    (take (N.to_nat to_copy) (drop (N.to_nat (upload_pos request)) data),
     {| request_data := data;
        upload_pos := ((upload_pos request + to_copy) mod 2 ^ 64)%N |})
  else ([], request).

(** libcurl asks for data with the buffer sizes [asks], one call each; the
    chunks it gets, in order, and the request afterwards. *)
Fixpoint read_all (asks : list (N * N)) (request : Upload)
  : list (list byte) * Upload :=
  match asks with
  | [] => ([], request)
  | (size, nmemb) :: asks' =>
      let '(chunk, request') := read_callback size nmemb request in
      let '(chunks, request'') := read_all asks' request' in
      (chunk :: chunks, request'')
  end.

(** The room libcurl offers in these calls altogether: [size * nmemb] of
    each, as [read_callback] computes it. *)
Definition room (asks : list (N * N)) : N :=
  foldr (fun ask acc => ((fst ask * snd ask) mod 2 ^ 64 + acc)%N) 0%N asks.

End upload.

(** ** storage_client.cpp: what holds of the requests in flight *)

Module inflight.
Import config url storage.

(** A request as [get], [put], [do_put] and [remove] make it for a caller:
    it targets the URL of some key under the client's configuration, carries
    the configured header list, and its callback is the caller's
    continuation, wrapped in the HEAD lambda exactly for a HEAD request. *)
Definition well_formed {K : Type} (config : Config) (req : HttpRequest K) : Prop :=
  storage.headers req = request_headers config
  /\ (exists hex_key, storage.url req = build_url config hex_key)
  /\ match operation req with
     | HEAD => exists hex_key data k,
                 callback req = HeadCheck hex_key data (Caller k)
                 /\ storage.url req = build_url config hex_key
     | _ => exists k, callback req = Caller k
     end.

(** The client still has [config], and every request in its registry is
    well formed under it. *)
Definition all_well_formed {K : Type} (config : Config) (s : StorageClient K)
  : Prop :=
  _config s = config
  /\ forall handle req,
       _active_requests s !! handle = Some req -> well_formed config req.

End inflight.

(** ** ipc_server.cpp: accepting a connection, the idle timer *)

Module accept.
Import config storage ipc.

Definition greeting : list byte := [PROTOCOL_VERSION; x01; CAP_GET_PUT_REMOVE_STOP].

(** What [on_new_connection] leaves behind. *)
Inductive Accepted :=
| NoClient                              (* nothing was accepted *)
| Closing (client : ClientConnection)   (* uv_close was called on the handle *)
| Reading (client : ClientConnection).  (* the connection is read from *)

(** [on_new_connection(server, status)], with the return codes of
    [uv_pipe_init], [uv_accept] and [uv_read_start] and the script of the
    new stream's [uv_write] calls. *)
Definition on_new_connection (status r_init r_accept r_read_start : Z)
    (script : list Z) : Accepted :=
  if (status <? 0)%Z then NoClient
  else if negb (r_init =? 0)%Z then NoClient
  else if negb (r_accept =? 0)%Z then Closing (new_connection script)
  else
    let client := send_response greeting (new_connection script) in
    if negb (r_read_start =? 0)%Z then Closing client else Reading client.

(** [reset_idle_timer]: the timeout in milliseconds the idle timer is armed
    with afterwards ([None]: not armed), given what it was before. *)
Definition reset_idle_timer (config : Config) (timer : option N) : option N :=
  if (idle_timeout_seconds config =? 0)%N then timer
  else Some ((idle_timeout_seconds config * 1000) mod 2 ^ 64)%N.

End accept.

(** ** ipc_server.cpp: a stream of records *)

Module wire.
Import storage ipc.

(** The bytes of the records of [rs], one after the other. *)
Definition stream (big_endian : bool) (rs : list spec.Request) : list byte :=
  concat (spec.record big_endian <$> rs).

(** The storage call of the loop turn that has decoded [r]. *)
Definition schedule (r : spec.Request) (st : StorageClient Continuation)
  : StorageClient Continuation * Calls Continuation :=
  match r with
  | spec.GetRequest key => storage.get (format_hex key) (Caller GetReply) st
  | spec.PutRequest key flags value =>
      storage.put (format_hex key) value (N.testbit (Byte.to_N flags) 0)
        (Caller PutReply) st
  | spec.RemoveRequest key => storage.remove (format_hex key) (Caller RemoveReply) st
  | spec.StopRequest => (st, [])
  end.

(** The server after that loop turn, the accumulator left aside. *)
Definition served (big_endian : bool) (srv : IpcServer) (r : spec.Request)
  : IpcServer :=
  let res := schedule r (_storage_client srv) in
  {| client := deliver big_endian (snd res) (client srv);
     _storage_client := fst res;
     loop_stopped := loop_stopped srv |}.

(** The server with [buf] as the accumulator of its connection. *)
Definition with_read_buf (buf : list byte) (srv : IpcServer) : IpcServer :=
  {| client := set_read_buf buf (client srv);
     _storage_client := _storage_client srv;
     loop_stopped := loop_stopped srv |}.

(** A GET, PUT or REMOVE whose key length fits its byte. *)
Definition servable (r : spec.Request) : Prop :=
  spec.key_fits r /\ r <> spec.StopRequest.

(** The beginning of a GET, PUT or REMOVE record that has not arrived in
    full (nothing of it, possibly). *)
Definition partial (big_endian : bool) (bytes : list byte) : Prop :=
  exists r n,
    servable r
    /\ (N.of_nat (length (spec.record big_endian r)) < 2 ^ 64)%N
    /\ (n < length (spec.record big_endian r))%nat
    /\ bytes = take n (spec.record big_endian r).

(** [buf] is the records of [rs] in full and then the beginning of one
    more. *)
Definition framed (big_endian : bool) (buf : list byte)
    (rs : list spec.Request) (rest : list byte) : Prop :=
  buf = (stream big_endian rs ++ rest)%list
  /\ Forall servable rs
  /\ partial big_endian rest
  /\ (N.of_nat (length buf) < 2 ^ 64)%N.

End wire.

(** ** logger.hpp / logger.cpp *)

Module logger.

(** [std::ofstream _file]: whether it is open, its fail state, and the lines
    written through it so far. *)
Record Logger := mkLogger {
  is_open : bool;
  failed : bool;
  lines : list string;
  _enabled : bool;
}.

(** The process-wide [g_logger] before [init_logger]. *)
Definition g_logger : Logger :=
  {| is_open := false; failed := false; lines := []; _enabled := false |}.

(** [Logger::init(log_file_path)]; [open_ok]: whether the file can be
    opened for appending.  Opening a stream that is open already fails and
    sets its fail state. *)
Definition init (log_file_path : string) (open_ok : bool) (l : Logger) : Logger :=
  if str.empty log_file_path then
    {| is_open := is_open l; failed := failed l; lines := lines l;
       _enabled := false |}
  else
    let opened := negb (is_open l) && open_ok in
    let l' := {| is_open := is_open l || opened;
                 failed := if opened then false else true;
                 lines := lines l; _enabled := _enabled l |} in
    if is_open l' then
      {| is_open := is_open l'; failed := failed l'; lines := lines l';
         _enabled := true |}
    else l'.

(** [init_logger()] under the environment [env]. *)
Definition init_logger (env : gmap string string) (open_ok : bool) (l : Logger)
  : Logger :=
  match config.getenv env "CRSH_LOGFILE" with
  | Some log_file => init log_file open_ok l
  | None => l
  end.

(** The three digits of the millisecond field:
    [std::setfill('0') << std::setw(3) << ms.count()]. *)
Definition pad3 (ms : Z) : string :=
  let digits := str.of_Z ms in
  match String.length digits with
  | 0%nat => "000" ++ digits
  | 1%nat => "00" ++ digits
  | 2%nat => "0" ++ digits
  | _ => digits
  end.

(** [Logger::log(msg)] at a moment whose local time prints as [time]
    ("%Y-%m-%dT%H:%M:%S") with [ms] milliseconds into the second. *)
Definition log (time : string) (ms : Z) (msg : string) (l : Logger) : Logger :=
  if negb (_enabled l) || negb (is_open l) then l
  else if failed l then l
  else
    let line := "[" ++ time ++ "." ++ pad3 ms ++ "] " ++ msg in
    {| is_open := is_open l; failed := failed l;
       lines := (lines l ++ [line])%list;
       _enabled := _enabled l |}.

(** The [LOG(msg)] macro. *)
Definition LOG (time : string) (ms : Z) (msg : string) (l : Logger) : Logger :=
  if _enabled l then log time ms msg l else l.

End logger.

(** ** Further vocabulary and example inputs *)

Module cases.
Import config url storage ipc.

Definition env_header_attribute : gmap string string :=
  <["CRSH_ATTR_KEY_0" := "header"]>
    (<["CRSH_ATTR_VALUE_0" := "X-Tag=a=b"]> ∅).

(** A decimal digit or a letter from [a] to [f]. *)
Definition lower_hex (c : ascii) : bool :=
  let n := nat_of_ascii c in
  ((48 <=? n)%nat && (n <=? 57)%nat) || ((97 <=? n)%nat && (n <=? 102)%nat).

(** After [put("ab", payload, overwrite = true, 7)]: the PUT is in flight. *)
Definition put_in_flight : StorageClient nat :=
  fst (put "ab" [x2a] true (Caller 7%nat) (ex.storage_client FLAT [])).

Definition put_request : HttpRequest nat :=
  {| operation := PUT; storage.url := "https://c.example/ab";
     request_data := [x2a]; response_data := [];
     callback := Caller 7%nat; storage.headers := [] |}.

(** A DONE message with transport error [curl_code] and libcurl's text for
    it in the error buffer. *)
Definition failed (handle : nat) (curl_code : Z) (text : string) : CURLMsg :=
  {| msg_done := true; easy_handle := handle; msg_result := curl_code;
     response_code := 0; error_buf := text |}.

(** The client after libcurl has delivered the body [chunks] of the request
    behind [handle], one [write_callback] each. *)
Definition bodies {K : Type} (handle : nat) (chunks : list (list byte))
    (s : StorageClient K) : StorageClient K :=
  foldl (fun s chunk => write_callback handle chunk s) s chunks.

(** The server of the scenarios with [buf] in the accumulator of its
    connection. *)
Definition server_holding (buf : list byte) : IpcServer :=
  wire.with_read_buf buf ex.server.

(** Two complete GET records and the first three bytes of a third. *)
Definition two_gets_and_a_half : list byte :=
  (ex.two_gets ++ [x00; x02; xcc])%list.

Definition env_log_file : gmap string string :=
  <["CRSH_LOGFILE" := "/tmp/crsh.log"]> ∅.

(** Two complete GET records, a STOP, and a REMOVE record after it. *)
Definition two_gets_and_a_stop : list byte :=
  (ex.two_gets ++ [x03; x02; x01; xcc])%list.

(** A PUT record: key [ab cd], overwrite flag set, the three value bytes
    [41 42 43] (length field in little-endian order). *)
Definition put_record : list byte :=
  [x01; x02; xab; xcd; x01; x03; x00; x00; x00; x00; x00; x00; x00;
   x41; x42; x43].

End cases.

(* ===================================================================== *)
(** * Part II: properties                                                 *)
(* ===================================================================== *)

Import config url storage ipc ex.

(** ** Strings *)

Lemma length_append (a b : string) :
  String.length (a ++ b) = (String.length a + String.length b)%nat.
Proof. induction a as [|c a IH]; simpl; [reflexivity | now rewrite IH]. Qed.

Lemma length_substring_0 (n : nat) (s : string) :
  String.length (String.substring 0 n s) = Nat.min n (String.length s).
Proof.
  revert n; induction s as [|c s IH]; intros [|n]; simpl; try reflexivity.
  now rewrite IH.
Qed.

Lemma back_append_char (s : string) (c : ascii) :
  str.back (s ++ String c "") = Some c.
Proof.
  induction s as [|d s IH]; simpl; [reflexivity |].
  destruct (s ++ String c "") eqn:E; [destruct s; discriminate | exact IH].
Qed.

(** ** Configuration *)

Lemma parse_attr_unknown (env : gmap string string) (i : N) (c : Config)
    (key value : string) :
  getenv env ("CRSH_ATTR_KEY_" ++ str.of_N i) = Some key ->
  getenv env ("CRSH_ATTR_VALUE_" ++ str.of_N i) = Some value ->
  key <> "bearer-token" -> key <> "layout" -> key <> "header" ->
  parse_attr env i c = Some c.
Proof.
  intros Hk Hv H1 H2 H3. unfold parse_attr. rewrite Hk, Hv.
  apply String.eqb_neq in H1, H2, H3. now rewrite H1, H2, H3.
Qed.

(** C10. An attribute pair whose key is none of "bearer-token", "layout" and
    "header", with both of its environment variables present, is skipped:
    the loop turn for it succeeds with the configuration unchanged, and
    parsing goes on with the next index exactly as if the turn had not taken
    place; it is not a parse failure. *)
Theorem unknown_attribute_is_ignored
    (env : gmap string string) (i : N) (c : Config) (key value : string)
    (todo : nat) :
  getenv env ("CRSH_ATTR_KEY_" ++ str.of_N i) = Some key ->
  getenv env ("CRSH_ATTR_VALUE_" ++ str.of_N i) = Some value ->
  key <> "bearer-token" -> key <> "layout" -> key <> "header" ->
  parse_attr env i c = Some c /\
  parse_attrs env (S todo) i c = parse_attrs env todo (N.succ i) c.
Proof.
  intros Hk Hv H1 H2 H3.
  pose proof (parse_attr_unknown env i c key value Hk Hv H1 H2 H3) as Hstep.
  split; [exact Hstep |]. simpl. now rewrite Hstep.
Qed.

Lemma unknown_attribute_is_ignored_witness :
  parse_attrs env_unknown_attribute 2 0 Config_default
    = Some (set_layout FLAT Config_default)
  /\ parse_config false env_unknown_attribute
     = Some {| ipc_endpoint := "/tmp/crsh.sock"; config.url := "https://c.example";
               idle_timeout_seconds := 0; bearer_token := None;
               layout := FLAT; config.headers := [] |}.
Proof.
  split; [| vm_compute; reflexivity].
  etransitivity.
  - apply (unknown_attribute_is_ignored env_unknown_attribute 0 Config_default
             "compression" "zstd" 1);
      [vm_compute; reflexivity | vm_compute; reflexivity
       | discriminate | discriminate | discriminate].
  - vm_compute; reflexivity.
Defined.

(** ** URL construction *)

Lemma base_url_ends_with_slash (c : Config) :
  str.back (base_url c) = Some "/"%char.
Proof.
  unfold base_url.
  destruct (str.empty (config.url c)) eqn:He; simpl.
  - apply back_append_char.
  - case_bool_decide as Hb; simpl; [exact Hb | apply back_append_char].
Qed.

(** C8, as the code has it.  The built URL is the origin, with one ['/']
    appended when the origin is empty or does not end in ['/'] and left as it
    is otherwise, followed by the layout-derived part; so the prefix ends
    with at least one ['/'], and trailing slashes the origin already has are
    kept. *)
Theorem build_url_origin_gets_a_slash_when_missing (c : Config) (hex_key : string) :
  (str.back (config.url c) = Some "/"%char ->
   build_url c hex_key = config.url c ++ layout_part (layout c) hex_key) /\
  (str.back (config.url c) <> Some "/"%char ->
   build_url c hex_key = (config.url c ++ "/") ++ layout_part (layout c) hex_key) /\
  (exists prefix, build_url c hex_key = prefix ++ layout_part (layout c) hex_key
                  /\ str.back prefix = Some "/"%char).
Proof.
  repeat split.
  - intros Hb. unfold build_url, base_url.
    destruct (config.url c) eqn:Hu; [discriminate |]. simpl str.empty.
    rewrite bool_decide_eq_true_2 by exact Hb. reflexivity.
  - intros Hb. unfold build_url, base_url.
    rewrite (bool_decide_eq_false_2 _ Hb). simpl.
    now rewrite orb_true_r.
  - exists (base_url c). split; [reflexivity | apply base_url_ends_with_slash].
Qed.

Lemma build_url_origin_gets_a_slash_when_missing_witness :
  build_url (config_of SUBDIRS "https://c.example/") "abcdef"
    = "https://c.example/ab/cdef"
  /\ build_url (config_of FLAT "https://c.example") "ab" = "https://c.example/ab".
Proof.
  split.
  - exact (proj1 (build_url_origin_gets_a_slash_when_missing
                    (config_of SUBDIRS "https://c.example/") "abcdef") eq_refl).
  - refine (proj1 (proj2 (build_url_origin_gets_a_slash_when_missing
                            (config_of FLAT "https://c.example") "ab")) _).
    vm_compute. discriminate.
Defined.

(** C8, as the specification words it, fails: an origin with two trailing
    slashes keeps both. *)
Lemma build_url_keeps_surplus_slashes :
  build_url (config_of FLAT "https://c.example//") "ab" = "https://c.example//ab"
  /\ spec.origin_with_exactly_one_slash "https://c.example//" = "https://c.example/"
  /\ build_url (config_of FLAT "https://c.example//") "ab"
     <> spec.origin_with_exactly_one_slash "https://c.example//"
          ++ layout_part FLAT "ab".
Proof. vm_compute. repeat split; discriminate. Qed.

(** Length of the BAZEL part: 64 characters after [ac/] only for keys of at
    least 32 characters; a shorter key is merely doubled. *)
Lemma bazel_part_length (hex_key : string) :
  String.length (layout_part BAZEL hex_key)
  = (3 + (if (32 <=? String.length hex_key)%nat then 64
          else 2 * String.length hex_key))%nat.
Proof.
  unfold layout_part, sha256_hex_size, str.substr.
  rewrite length_append. simpl String.length at 1.
  destruct (64 <=? String.length hex_key)%nat eqn:H64.
  - apply Nat.leb_le in H64. rewrite length_substring_0.
    destruct (32 <=? String.length hex_key)%nat eqn:H32; [lia |].
    apply Nat.leb_gt in H32. lia.
  - apply Nat.leb_gt in H64. rewrite length_append, length_substring_0.
    destruct (32 <=? String.length hex_key)%nat eqn:H32.
    + apply Nat.leb_le in H32. lia.
    + apply Nat.leb_gt in H32. lia.
Qed.

(** C3 at the key of scenario 6 (the five key bytes 01 23 45 67 89): the part
    after [ac/] is the key twice, 20 characters, not 64. *)
Theorem bazel_short_key_is_not_padded_to_64 :
  format_hex [x01; x23; x45; x67; x89] = "0123456789"
  /\ build_url (config_of BAZEL "https://c.example/") "0123456789"
     = "https://c.example/ac/01234567890123456789"
  /\ String.length (layout_part BAZEL "0123456789") = (3 + 20)%nat.
Proof. vm_compute. repeat split. Qed.

(** ** Storage client: requests and their handles *)

Section storage_facts.
Context {K : Type} (strerror : Z -> string).
Implicit Types (s : StorageClient K) (req : HttpRequest K) (k : K).

Lemma create_easy_handle_some s req :
  hd true (easy_init_script s) = true ->
  create_easy_handle req s
  = (Some (fresh (dom (_active_requests s)),
           storage.set_headers (request_headers (_config s)) req),
     snd (curl_easy_init s)).
Proof.
  intros H. unfold create_easy_handle, curl_easy_init.
  destruct (easy_init_script s) as [|[] ?]; simpl in *; congruence.
Qed.

Lemma create_easy_handle_none s req :
  hd true (easy_init_script s) = false ->
  create_easy_handle req s = (None, snd (curl_easy_init s)).
Proof.
  intros H. unfold create_easy_handle, curl_easy_init.
  destruct (easy_init_script s) as [|[] ?]; simpl in *; congruence.
Qed.

Lemma curl_easy_init_requests s :
  _active_requests (snd (curl_easy_init s)) = _active_requests s.
Proof. unfold curl_easy_init. now destruct (easy_init_script s). Qed.

Lemma curl_easy_init_added s :
  multi_added (snd (curl_easy_init s)) = multi_added s.
Proof. unfold curl_easy_init. now destruct (easy_init_script s). Qed.

Lemma curl_easy_init_config s :
  _config (snd (curl_easy_init s)) = _config s.
Proof. unfold curl_easy_init. now destruct (easy_init_script s). Qed.

Lemma fresh_handle_unused s :
  _active_requests s !! fresh (dom (_active_requests s)) = None.
Proof. apply not_elem_of_dom, is_fresh. Qed.

(** A finished request whose callback is a caller's continuation hands the
    classified response to that continuation and leaves the registry. *)
Lemma handle_msg_caller s msg req k :
  msg_done msg = true ->
  _active_requests s !! easy_handle msg = Some req ->
  callback req = Caller k ->
  handle_msg strerror msg s
  = (set_active_requests (delete (easy_handle msg) (_active_requests s)) s,
     [(k, completion strerror req msg)]).
Proof.
  intros Hd Hl Hc. unfold handle_msg. rewrite Hd, Hl, Hc. reflexivity.
Qed.

Lemma write_callback_lookup s h req bytes :
  _active_requests s !! h = Some req ->
  _active_requests (write_callback h bytes s) !! h
  = Some (set_response_data (response_data req ++ bytes)%list req).
Proof.
  intros Hl. unfold write_callback. simpl.
  rewrite lookup_alter, decide_True by reflexivity. now rewrite Hl.
Qed.

End storage_facts.

(** C2, as the code has it.  A GET that completes without transport error
    resolves, that is hands to its callback, OK with the captured body on
    status 200, NOOP with an empty body on status 404, and ERROR with message
    "HTTP <code>" on every other status, the other 2xx codes included. *)
Theorem get_completion_by_status
    {K : Type} (strerror : Z -> string) (s : StorageClient K)
    (msg : CURLMsg) (req : HttpRequest K) :
  msg_done msg = true ->
  _active_requests s !! easy_handle msg = Some req ->
  operation req = GET ->
  msg_result msg = CURLE_OK ->
  exists response,
    handle_msg strerror msg s
    = invoke (callback req) response
        (set_active_requests (delete (easy_handle msg) (_active_requests s)) s) /\
    (response_code msg = 200%Z ->
     response = {| result := OK; error := ""; data := response_data req |}) /\
    (response_code msg = 404%Z ->
     response = {| result := NOOP; error := ""; data := [] |}) /\
    (response_code msg <> 200%Z -> response_code msg <> 404%Z ->
     result response = ERROR /\ error response = http_error (response_code msg)).
Proof.
  intros Hd Hl Hop Hr.
  exists (completion strerror req msg). split.
  { unfold handle_msg. now rewrite Hd, Hl. }
  unfold completion. rewrite Hr, Hop. simpl.
  split; [| split].
  - intros ->. reflexivity.
  - intros ->. reflexivity.
  - intros H200 H404.
    destruct (Z.eqb_spec (response_code msg) 200); [contradiction |].
    destruct (Z.eqb_spec (response_code msg) 404); [contradiction |].
    split; reflexivity.
Qed.

Lemma get_completion_by_status_witness :
  exists response,
    handle_msg strerror (done 0 200) get_in_flight
    = (set_active_requests ∅ get_in_flight, [(7%nat, response)]) /\
    response = {| result := OK; error := ""; data := ["X"%byte] |}.
Proof.
  destruct (get_completion_by_status strerror get_in_flight (done 0 200)
              {| operation := GET; storage.url := "https://c.example/ab/cdef";
                 request_data := []; response_data := ["X"%byte];
                 callback := Caller 7%nat; storage.headers := [] |}
              eq_refl eq_refl eq_refl eq_refl)
    as (response & Hrun & H200 & _).
  exists response. split; [| exact (H200 eq_refl)].
  rewrite Hrun. reflexivity.
Defined.

(** C2, as the specification words it, fails: status 204 is in the 2xx range,
    the transfer has no transport error, and the GET resolves ERROR. *)
Lemma get_status_204_resolves_error :
  (200 <= 204 <= 299)%Z
  /\ msg_result (done 0 204) = CURLE_OK
  /\ snd (check_multi_info strerror [done 0 204] get_in_flight)
     = [(7%nat, {| result := ERROR; error := "HTTP 204"; data := ["X"%byte] |})].
Proof. split; [lia |]. vm_compute. split; reflexivity. Qed.

(** ** Storage client: accounting of continuations *)

Section accounting.
Context {K : Type} `{EqDecision K} (strerror : Z -> string).
Implicit Types (s : StorageClient K) (req : HttpRequest K) (k : K)
  (cb : StorageCallback K).

Lemma pending_curl_easy_init s k :
  pending k (snd (curl_easy_init s)) = pending k s.
Proof. unfold pending. now rewrite curl_easy_init_requests. Qed.

Lemma pending_add_request s h req k :
  _active_requests s !! h = None ->
  pending k (add_request h req s) = (holds k (callback req) + pending k s)%nat.
Proof.
  intros Hl. unfold pending, add_request. simpl.
  now rewrite (map_to_list_insert _ _ _ Hl).
Qed.

Lemma pending_delete s h req k :
  _active_requests s !! h = Some req ->
  (holds k (callback req)
   + pending k (set_active_requests (delete h (_active_requests s)) s))%nat
  = pending k s.
Proof.
  intros Hl. unfold pending. simpl.
  now rewrite <- (map_to_list_delete _ _ _ Hl).
Qed.

Lemma pending_write_callback s h bytes k :
  pending k (write_callback h bytes s) = pending k s.
Proof.
  unfold write_callback. destruct (_active_requests s !! h) as [req|] eqn:Hl.
  - rewrite <- (pending_delete s h req k Hl).
    unfold pending. simpl. rewrite (alter_alt_Some _ _ _ _ Hl).
    rewrite <- insert_delete_eq.
    rewrite map_to_list_insert by apply lookup_delete_eq. reflexivity.
  - unfold pending. simpl. now rewrite alter_alt, Hl.
Qed.

Lemma invocations_app k (a b : Calls K) :
  invocations k (a ++ b)%list = (invocations k a + invocations k b)%nat.
Proof. apply sum_list_with_app. Qed.

Lemma scheduled_cons k ev (evs : list (Event K)) :
  scheduled k (ev :: evs) = (schedules k ev + scheduled k evs)%nat.
Proof. reflexivity. Qed.

(** Registering a request under a fresh handle. *)
Lemma pending_registered s req k :
  pending k (add_request (fresh (dom (_active_requests s)))
               (storage.set_headers (request_headers (_config s)) req)
               (snd (curl_easy_init s)))
  = (holds k (callback req) + pending k s)%nat.
Proof.
  rewrite pending_add_request.
  - now rewrite pending_curl_easy_init.
  - rewrite curl_easy_init_requests. apply fresh_handle_unused.
Qed.

(** Running a callback neither loses nor duplicates a continuation: what
    it held is afterwards either invoked or held by a new request. *)
Lemma invoke_accounting cb k : forall response s,
  (invocations k (snd (invoke cb response s))
   + pending k (fst (invoke cb response s)))%nat
  = (holds k cb + pending k s)%nat.
Proof.
  induction cb as [k'|hex_key payload cb IH]; intros response s.
  - simpl. unfold invocations. simpl. lia.
  - simpl. destruct (result response).
    + apply IH.
    + unfold do_put_with.
      destruct (hd true (easy_init_script s)) eqn:Hi.
      * rewrite create_easy_handle_some by exact Hi. simpl.
        rewrite pending_registered. reflexivity.
      * rewrite create_easy_handle_none by exact Hi.
        rewrite IH. now rewrite pending_curl_easy_init.
    + apply IH.
Qed.

(** Starting a request for a callback: either it is registered, or its
    callback runs at once. *)
Lemma start_accounting cb k s req :
  callback req = cb ->
  let r := match create_easy_handle req s with
           | (None, s') => invoke cb handle_failure s'
           | (Some (handle, request'), s') => (add_request handle request' s', [])
           end in
  (invocations k (snd r) + pending k (fst r))%nat = (holds k cb + pending k s)%nat.
Proof.
  intros Hcb. destruct (hd true (easy_init_script s)) eqn:Hi.
  - rewrite create_easy_handle_some by exact Hi. simpl.
    rewrite pending_registered. now rewrite Hcb.
  - rewrite create_easy_handle_none by exact Hi. simpl.
    rewrite invoke_accounting. now rewrite pending_curl_easy_init.
Qed.

Lemma get_accounting hex_key cb k s :
  (invocations k (snd (get hex_key cb s)) + pending k (fst (get hex_key cb s)))%nat
  = (holds k cb + pending k s)%nat.
Proof. unfold get. now apply start_accounting. Qed.

Lemma remove_accounting hex_key cb k s :
  (invocations k (snd (remove hex_key cb s))
   + pending k (fst (remove hex_key cb s)))%nat
  = (holds k cb + pending k s)%nat.
Proof. unfold remove. now apply start_accounting. Qed.

Lemma put_accounting hex_key payload overwrite cb k s :
  (invocations k (snd (put hex_key payload overwrite cb s))
   + pending k (fst (put hex_key payload overwrite cb s)))%nat
  = (holds k cb + pending k s)%nat.
Proof.
  unfold put. destruct overwrite.
  - unfold do_put, do_put_with. now apply start_accounting.
  - destruct (hd true (easy_init_script s)) eqn:Hi.
    + rewrite create_easy_handle_some by exact Hi. simpl.
      rewrite pending_registered. reflexivity.
    + rewrite create_easy_handle_none by exact Hi.
      rewrite invoke_accounting. now rewrite pending_curl_easy_init.
Qed.

Lemma handle_msg_accounting msg k s :
  (invocations k (snd (handle_msg strerror msg s))
   + pending k (fst (handle_msg strerror msg s)))%nat
  = pending k s.
Proof.
  unfold handle_msg. destruct (msg_done msg); simpl; [| reflexivity].
  destruct (_active_requests s !! easy_handle msg) as [req|] eqn:Hl;
    [| reflexivity].
  rewrite invoke_accounting. now apply pending_delete.
Qed.

Lemma check_multi_info_accounting msgs k : forall s,
  (invocations k (snd (check_multi_info strerror msgs s))
   + pending k (fst (check_multi_info strerror msgs s)))%nat
  = pending k s.
Proof.
  induction msgs as [|msg msgs IH]; intros s; simpl; [reflexivity |].
  pose proof (handle_msg_accounting msg k s) as H1.
  destruct (handle_msg strerror msg s) as [s1 calls1]. simpl in H1.
  specialize (IH s1).
  destruct (check_multi_info strerror msgs s1) as [s2 calls2]. simpl in *.
  rewrite invocations_app. lia.
Qed.

Lemma step_accounting ev k s :
  (invocations k (snd (step strerror ev s))
   + pending k (fst (step strerror ev s)))%nat
  = (pending k s + schedules k ev)%nat.
Proof.
  destruct ev as [hex_key k'|hex_key payload overwrite k'|hex_key k'|h bytes|msgs];
    simpl.
  - rewrite get_accounting. simpl. lia.
  - rewrite put_accounting. simpl. lia.
  - rewrite remove_accounting. simpl. lia.
  - rewrite pending_write_callback. lia.
  - rewrite check_multi_info_accounting. lia.
Qed.

Lemma run_accounting evs k : forall s,
  (invocations k (snd (run strerror evs s))
   + pending k (fst (run strerror evs s)))%nat
  = (pending k s + scheduled k evs)%nat.
Proof.
  induction evs as [|ev evs IH]; intros s.
  - unfold scheduled. simpl. lia.
  - rewrite scheduled_cons. simpl run.
    pose proof (step_accounting ev k s) as H1.
    destruct (step strerror ev s) as [s1 calls1]. simpl in H1.
    specialize (IH s1).
    destruct (run strerror evs s1) as [s2 calls2]. simpl fst in *. simpl snd in *.
    rewrite invocations_app. lia.
Qed.

End accounting.

(** ** Storage client: the conditional PUT *)

Section put_protocol.
Context {K : Type} (strerror : Z -> string).
Implicit Types (s : StorageClient K) (req : HttpRequest K) (k : K).

(** A request that gets its handle is registered and added to the multi
    handle; no callback runs. *)
Lemma start_registered s req :
  hd true (easy_init_script s) = true ->
  let r := match create_easy_handle req s with
           | (None, s') => invoke (callback req) handle_failure s'
           | (Some (handle, request'), s') => (add_request handle request' s', [])
           end in
  snd r = [] /\
  multi_added (fst r)
  = (multi_added s
     ++ [(fresh (dom (_active_requests s)), operation req, storage.url req)])%list /\
  _active_requests (fst r)
  = <[fresh (dom (_active_requests s))
      := storage.set_headers (request_headers (_config s)) req]>
      (_active_requests s).
Proof.
  intros Hi. rewrite create_easy_handle_some by exact Hi. simpl.
  now rewrite curl_easy_init_added, curl_easy_init_requests.
Qed.

Lemma handle_msg_head_check s msg req hex_key payload k :
  msg_done msg = true ->
  _active_requests s !! easy_handle msg = Some req ->
  callback req = HeadCheck hex_key payload (Caller k) ->
  let s' := set_active_requests (delete (easy_handle msg) (_active_requests s)) s in
  handle_msg strerror msg s
  = match result (completion strerror req msg) with
    | OK => (s', [(k, {| result := NOOP; error := ""; data := [] |})])
    | NOOP => put hex_key payload true (Caller k) s'
    | ERROR => (s', [(k, completion strerror req msg)])
    end.
Proof.
  intros Hd Hl Hc. unfold handle_msg. rewrite Hd, Hl, Hc. simpl.
  destruct (result (completion strerror req msg)); reflexivity.
Qed.

End put_protocol.




(** ** Storage client: when continuations run *)




(** ** IPC server: framing *)

Section framing.
Variable big_endian : bool.
Implicit Types (srv : IpcServer) (buf rest : list byte).

Lemma byte_eqb_neq (a b : byte) : a <> b -> Byte.eqb a b = false.
Proof.
  intros Hne. destruct (Byte.eqb a b) eqn:E; [| reflexivity].
  exfalso. apply Hne. now apply Byte.byte_dec_bl.
Qed.

Lemma decode_unknown request_type rest :
  request_type <> REQ_GET -> request_type <> REQ_PUT ->
  request_type <> REQ_REMOVE -> request_type <> REQ_STOP ->
  decode big_endian (request_type :: rest) = UnknownType request_type.
Proof.
  intros H0 H1 H2 H3. unfold decode.
  now rewrite (byte_eqb_neq _ _ H3), (byte_eqb_neq _ _ H0),
    (byte_eqb_neq _ _ H1), (byte_eqb_neq _ _ H2).
Qed.

Lemma decode_stop rest : decode big_endian (REQ_STOP :: rest) = Stop.
Proof. reflexivity. Qed.

Lemma read_buf_flush_write_queue (c : ClientConnection) :
  read_buf (flush_write_queue c) = read_buf c.
Proof.
  unfold flush_write_queue. destruct (writing c); [reflexivity |].
  destruct (write_queue c); reflexivity.
Qed.

Lemma read_buf_send_response data (c : ClientConnection) :
  read_buf (send_response data c) = read_buf c.
Proof. unfold send_response. now rewrite read_buf_flush_write_queue. Qed.

Lemma read_buf_send_simple_response op response (c : ClientConnection) :
  read_buf (send_simple_response op response c) = read_buf c.
Proof.
  unfold send_simple_response.
  destruct (result response); apply read_buf_send_response.
Qed.

Lemma read_buf_reply k response (c : ClientConnection) :
  read_buf (reply big_endian k response c) = read_buf c.
Proof.
  destruct k; simpl; try apply read_buf_send_simple_response.
  destruct (result response);
    rewrite ?read_buf_send_response, ?read_buf_send_simple_response; reflexivity.
Qed.

Lemma read_buf_deliver calls : forall c : ClientConnection,
  read_buf (deliver big_endian calls c) = read_buf c.
Proof.
  induction calls as [|call calls IH]; intros c; [reflexivity |].
  unfold deliver in *. simpl. rewrite IH. apply read_buf_reply.
Qed.

(** The final offset of a decoded record lies within the accumulator and
    covers at least the type byte and the key length byte. *)
Lemma decode_offset_bounds buf :
  (N.of_nat (length buf) < 2 ^ 64)%N ->
  match decode big_endian buf with
  | Get _ offset | Put _ _ _ offset | Remove _ offset =>
      (2 <= offset <= N.of_nat (length buf))%N
  | _ => True
  end.
Proof.
  intros Hsize.
  unfold decode. destruct buf as [|request_type tail]; [exact I |].
  fold (length (request_type :: tail)) in Hsize.
  set (len := N.of_nat (length (request_type :: tail))).
  destruct (Byte.eqb request_type REQ_STOP); [exact I |].
  destruct (negb _ && negb _ && negb _); [exact I |].
  destruct (N.ltb_spec len (1 + 1)); [exact I |].
  set (key_len := Byte.to_N _).
  destruct (N.ltb_spec len (1 + 1 + key_len)); [exact I |].
  destruct (Byte.eqb request_type REQ_GET); [lia |].
  destruct (Byte.eqb request_type REQ_PUT); [| lia].
  destruct (N.ltb_spec len (1 + 1 + key_len + 1)); [exact I |].
  destruct (N.ltb_spec len (1 + 1 + key_len + 1 + 8)); [exact I |].
  set (value_len := read_u64_host_byte_order _ _).
  destruct (N.ltb_spec len (size_add (1 + 1 + key_len + 1 + 8) value_len));
    [exact I |].
  destruct (N.ltb_spec len (1 + 1 + key_len + 1 + 8 + value_len)); [exact I |].
  fold len in Hsize. unfold size_add. rewrite N.mod_small by lia. lia.
Qed.

(** Every turn that goes on shortens the accumulator, so its length is
    enough turns: the loop never stops for want of turns. *)
Lemma process_loop_turns_suffice : forall turns srv,
  (N.of_nat (length (read_buf (client srv))) < 2 ^ 64)%N ->
  (length (read_buf (client srv)) <= turns)%nat ->
  process_loop big_endian turns srv = process_client_data big_endian srv.
Proof.
  unfold process_client_data.
  induction turns as [turns IH] using lt_wf_ind. intros srv Hsize Hlen.
  destruct (read_buf (client srv)) as [|b tail] eqn:Hbuf.
  { destruct turns; simpl; now rewrite ?Hbuf. }
  destruct turns as [|turns]; [simpl in Hlen; lia |].
  cbn [length process_loop]. rewrite Hbuf.
  pose proof (decode_offset_bounds (b :: tail) Hsize) as Hoff.
  assert (Hgo : forall offset r,
            (2 <= offset <= N.of_nat (length (b :: tail)))%N ->
            process_loop big_endian turns (dispatched big_endian offset srv r)
            = process_loop big_endian (length tail)
                (dispatched big_endian offset srv r)).
  { intros offset r Ho.
    set (srv1 := dispatched big_endian offset srv r).
    assert (Hl : length (read_buf (client srv1))
                 = (length (b :: tail) - N.to_nat offset)%nat).
    { unfold srv1, dispatched. simpl client. unfold set_read_buf. simpl read_buf.
      rewrite read_buf_deliver, Hbuf. apply length_drop. }
    change (length (b :: tail)) with (S (length tail)) in Hl.
    simpl length in Ho, Hsize, Hlen.
    assert (Hlt : (length (read_buf (client srv1)) <= length tail)%nat) by lia.
    assert (Hs1 : (N.of_nat (length (read_buf (client srv1))) < 2 ^ 64)%N) by lia.
    assert (Ht : (length tail < S turns)%nat) by lia.
    rewrite (IH turns (Nat.lt_succ_diag_r turns) srv1 Hs1 ltac:(lia)).
    rewrite (IH (length tail) Ht srv1 Hs1 Hlt). reflexivity. }
  destruct (decode big_endian (b :: tail)); try reflexivity; now apply Hgo.
Qed.

(** An incomplete record is retained: the call returns with the server
    exactly as it was. *)
Lemma process_loop_incomplete turns srv :
  decode big_endian (read_buf (client srv)) = Incomplete ->
  process_loop big_endian turns srv = Returns srv.
Proof.
  intros Hdec. destruct turns; [reflexivity |]. simpl.
  destruct (read_buf (client srv)); [reflexivity |]. now rewrite Hdec.
Qed.

(** A complete GET, PUT or REMOVE record is erased in full, with the final
    offset of its decoding, before the next turn. *)
Lemma process_loop_erases_offset turns srv :
  match decode big_endian (read_buf (client srv)) with
  | Get _ offset | Put _ _ _ offset | Remove _ offset =>
      exists srv',
        process_loop big_endian (S turns) srv = process_loop big_endian turns srv'
        /\ read_buf (client srv') = drop (N.to_nat offset) (read_buf (client srv))
  | _ => True
  end.
Proof.
  destruct (read_buf (client srv)) as [|b tail] eqn:Hbuf; [exact I |].
  destruct (decode big_endian (b :: tail)) eqn:Hdec; try exact I;
    (eexists; split;
     [simpl; rewrite Hbuf, Hdec; reflexivity
     | unfold dispatched; simpl; now rewrite read_buf_deliver, Hbuf]).
Qed.

End framing.

(** ** IPC server: records of the wire protocol *)

Lemma to_N_byte_of_N (n : N) : (n < 256)%N -> Byte.to_N (byte_of_N n) = n.
Proof.
  intros Hn. unfold byte_of_N. rewrite N.mod_small by exact Hn.
  destruct (Byte.of_N n) as [b|] eqn:E.
  - simpl. now apply Byte.to_of_N.
  - apply Byte.of_N_None_iff in E. lia.
Qed.

Lemma to_N_byte_of_N_mod (n : N) : Byte.to_N (byte_of_N n) = (n mod 256)%N.
Proof.
  unfold byte_of_N.
  assert (Hlt : (n mod 256 < 256)%N) by (apply N.mod_lt; lia).
  destruct (Byte.of_N (n mod 256)) as [b|] eqn:E.
  - simpl. now apply Byte.to_of_N.
  - apply Byte.of_N_None_iff in E. lia.
Qed.

Lemma length_le_bytes n v : length (le_bytes n v) = n.
Proof. revert v; induction n; intros v; simpl; [reflexivity | now rewrite IHn]. Qed.

Lemma le_value_le_bytes n : forall v, le_value (le_bytes n v) = (v mod 256 ^ N.of_nat n)%N.
Proof.
  induction n as [|n IH]; intros v.
  - simpl. now rewrite N.mod_1_r.
  - cbn [le_bytes le_value]. rewrite IH, to_N_byte_of_N_mod.
    rewrite Nat2N.inj_succ, N.pow_succ_r'.
    rewrite (N.Div0.mod_mul_r v 256 (256 ^ N.of_nat n)). lia.
Qed.

Lemma length_u64_host_byte_order be v : length (u64_host_byte_order be v) = 8%nat.
Proof.
  unfold u64_host_byte_order. destruct be; rewrite ?length_rev; apply length_le_bytes.
Qed.

Lemma read_u64_of_u64 be v tail :
  (v < 2 ^ 64)%N ->
  read_u64_host_byte_order be (u64_host_byte_order be v ++ tail) = v.
Proof.
  intros Hv. unfold read_u64_host_byte_order.
  rewrite take_app_length' by (symmetry; apply length_u64_host_byte_order).
  unfold u64_host_byte_order. destruct be; rewrite ?rev_involutive;
    rewrite le_value_le_bytes; apply N.mod_small; exact Hv.
Qed.

(** Settles the comparisons of sizes that linear arithmetic decides. *)
Ltac decide_ltb :=
  repeat match goal with
  | |- context [(?a <? ?b)%N] =>
      first [ replace (a <? b)%N with false by (symmetry; apply N.ltb_ge; lia)
            | replace (a <? b)%N with true by (symmetry; apply N.ltb_lt; lia) ]
  end.

Section records.
Variable big_endian : bool.

Lemma key_length_byte (key : list byte) :
  (length key <= 255)%nat ->
  Byte.to_N (byte_of_N (N.of_nat (length key))) = N.of_nat (length key).
Proof. intros H. apply to_N_byte_of_N. lia. Qed.

(** [decode] on a GET or REMOVE record whose key length byte is [kb]. *)
Lemma decode_keyed (request_type kb : byte) (body : list byte) :
  request_type = REQ_GET \/ request_type = REQ_REMOVE ->
  decode big_endian (request_type :: kb :: body)
  = if (N.of_nat (length body) <? Byte.to_N kb)%N then Incomplete
    else
      let hex_key := format_hex (take (N.to_nat (Byte.to_N kb)) body) in
      if Byte.eqb request_type REQ_GET then Get hex_key (2 + Byte.to_N kb)
      else Remove hex_key (2 + Byte.to_N kb).
Proof.
  intros Ht. unfold decode.
  assert (Hstop : Byte.eqb request_type REQ_STOP = false)
    by (destruct Ht; subst; reflexivity).
  assert (Hknown : negb (Byte.eqb request_type REQ_GET)
                   && negb (Byte.eqb request_type REQ_PUT)
                   && negb (Byte.eqb request_type REQ_REMOVE) = false)
    by (destruct Ht; subst; reflexivity).
  assert (Hput : Byte.eqb request_type REQ_PUT = false)
    by (destruct Ht; subst; reflexivity).
  rewrite Hstop, Hknown.
  change (N.to_nat 1) with 1%nat. change (N.to_nat (1 + 1)) with 2%nat.
  cbn [length nth drop].
  replace (N.of_nat (S (S (length body))) <? 1 + 1)%N with false
    by (symmetry; apply N.ltb_ge; lia).
  replace (N.of_nat (S (S (length body))) <? 1 + 1 + Byte.to_N kb)%N
    with (N.of_nat (length body) <? Byte.to_N kb)%N.
  2:{ destruct (N.ltb_spec (N.of_nat (length body)) (Byte.to_N kb));
      symmetry; [apply N.ltb_lt | apply N.ltb_ge]; lia. }
  destruct (N.of_nat (length body) <? Byte.to_N kb)%N; [reflexivity |].
  rewrite Hput. cbv zeta.
  replace (1 + 1 + Byte.to_N kb)%N with (2 + Byte.to_N kb)%N by lia.
  reflexivity.
Qed.

(** [decode] on a PUT record whose key length byte is [kb]. *)
Lemma decode_put (kb : byte) (body : list byte) :
  let k := Byte.to_N kb in
  let len := N.of_nat (length body) in
  decode big_endian (REQ_PUT :: kb :: body)
  = if (len <? k)%N then Incomplete
    else if (len <? k + 1)%N then Incomplete
    else if (len <? k + 9)%N then Incomplete
    else
      let value_len :=
        read_u64_host_byte_order big_endian (drop (N.to_nat k + 1) body) in
      if (2 + len <? size_add (11 + k) value_len)%N then Incomplete
      else if (2 + len <? 11 + k + value_len)%N then OutOfRange
      else
        Put (format_hex (take (N.to_nat k) body))
            (take (N.to_nat value_len) (drop (N.to_nat k + 9) body))
            (negb (N.land (Byte.to_N (nth (N.to_nat k) body x00))
                          (Byte.to_N PUT_FLAG_OVERWRITE) =? 0)%N)
            (size_add (11 + k) value_len).
Proof.
  intros k len. unfold decode.
  change (Byte.eqb REQ_PUT REQ_STOP) with false.
  change (Byte.eqb REQ_PUT REQ_GET) with false.
  change (Byte.eqb REQ_PUT REQ_PUT) with true.
  change (Byte.eqb REQ_PUT REQ_REMOVE) with false.
  cbn [negb andb].
  change (N.to_nat 1) with 1%nat. change (N.to_nat (1 + 1)) with 2%nat.
  cbn [nth length]. fold k.
  replace (N.to_nat (1 + 1 + k)) with (S (S (N.to_nat k))) by lia.
  replace (N.to_nat (1 + 1 + k + 1)) with (S (S (N.to_nat k + 1))) by lia.
  replace (N.to_nat (1 + 1 + k + 1 + 8)) with (S (S (N.to_nat k + 9))) by lia.
  cbn [nth drop].
  replace (N.of_nat (S (S (length body)))) with (2 + len)%N by (unfold len; lia).
  replace (1 + 1 + k + 1 + 8)%N with (11 + k)%N by lia.
  replace (2 + len <? 1 + 1)%N with false by (symmetry; apply N.ltb_ge; lia).
  replace (2 + len <? 1 + 1 + k)%N with (len <? k)%N.
  2:{ destruct (N.ltb_spec len k); symmetry; [apply N.ltb_lt | apply N.ltb_ge]; lia. }
  replace (2 + len <? 1 + 1 + k + 1)%N with (len <? k + 1)%N.
  2:{ destruct (N.ltb_spec len (k + 1)); symmetry;
      [apply N.ltb_lt | apply N.ltb_ge]; lia. }
  replace (2 + len <? 11 + k)%N with (len <? k + 9)%N.
  2:{ destruct (N.ltb_spec len (k + 9)); symmetry;
      [apply N.ltb_lt | apply N.ltb_ge]; lia. }
  reflexivity.
Qed.

Lemma overwrite_flag_is_bit_0 (flags : byte) :
  negb (N.land (Byte.to_N flags) (Byte.to_N PUT_FLAG_OVERWRITE) =? 0)%N
  = N.testbit (Byte.to_N flags) 0.
Proof. destruct flags; reflexivity. Qed.

Lemma read_u64_take (n : nat) (l : list byte) :
  (8 <= n)%nat ->
  read_u64_host_byte_order big_endian (take n l)
  = read_u64_host_byte_order big_endian l.
Proof.
  intros Hn. unfold read_u64_host_byte_order.
  rewrite take_take. now replace (8 `min` n)%nat with 8%nat by lia.
Qed.

Lemma length_record (r : spec.Request) :
  length (spec.record big_endian r)
  = match r with
    | spec.GetRequest key | spec.RemoveRequest key => (2 + length key)%nat
    | spec.PutRequest key _ value => (11 + length key + length value)%nat
    | spec.StopRequest => 1%nat
    end.
Proof.
  destruct r as [key|key flags value|key|]; cbn [spec.record length];
    try reflexivity.
  rewrite length_app. cbn [length].
  rewrite length_app, length_u64_host_byte_order. lia.
Qed.

(** A complete record at the head of the accumulator is decoded as the
    request it encodes, and its final offset is the size of the record. *)
Lemma decode_complete_record (r : spec.Request) (rest : list byte) :
  spec.key_fits r ->
  (N.of_nat (length (spec.record big_endian r ++ rest)) < 2 ^ 64)%N ->
  decode big_endian (spec.record big_endian r ++ rest)
  = spec.decoded r (N.of_nat (length (spec.record big_endian r))).
Proof.
  intros Hkey Hsize. rewrite length_app, length_record in Hsize.
  rewrite length_record.
  destruct r as [key|key flags value|key|]; simpl in Hkey; cbn [spec.record app].
  - rewrite decode_keyed by (now left).
    rewrite (key_length_byte key Hkey), length_app. decide_ltb.
    rewrite Nat2N.id, take_app_length. cbn [spec.decoded].
    change (Byte.eqb REQ_GET REQ_GET) with true. cbv iota zeta. f_equal. lia.
  - rewrite decode_put, (key_length_byte key Hkey), Nat2N.id.
    rewrite <- !app_assoc. cbn [app]. rewrite <- !app_assoc.
    pose proof (length_u64_host_byte_order big_endian (N.of_nat (length value)))
      as Hu64.
    set (u64 := u64_host_byte_order big_endian (N.of_nat (length value))) in *.
    assert (Hlen : length (key ++ flags :: u64 ++ value ++ rest)%list
                   = (length key + (9 + (length value + length rest)))%nat).
    { rewrite length_app. cbn [length]. rewrite !length_app, Hu64. lia. }
    assert (Hdrop1 : drop (length key + 1) (key ++ flags :: u64 ++ value ++ rest)%list
                     = (u64 ++ value ++ rest)%list).
    { rewrite <- drop_drop, drop_app_length. reflexivity. }
    assert (Hdrop9 : drop (length key + 9) (key ++ flags :: u64 ++ value ++ rest)%list
                     = (value ++ rest)%list).
    { replace (length key + 9)%nat with (length key + 1 + 8)%nat by lia.
      rewrite <- drop_drop, Hdrop1. now apply drop_app_length'. }
    rewrite Hlen, Hdrop1, Hdrop9. cbv zeta.
    unfold u64. rewrite read_u64_of_u64 by lia. fold u64.
    replace (size_add (11 + N.of_nat (length key)) (N.of_nat (length value)))
      with (11 + N.of_nat (length key) + N.of_nat (length value))%N
      by (unfold size_add; symmetry; apply N.mod_small; lia).
    decide_ltb.
    rewrite Nat2N.id, (take_app_length key), (take_app_length value).
    rewrite nth_middle, overwrite_flag_is_bit_0.
    cbn [spec.decoded]. f_equal. lia.
  - rewrite decode_keyed by (now right).
    rewrite (key_length_byte key Hkey), length_app. decide_ltb.
    rewrite Nat2N.id, take_app_length. cbn [spec.decoded].
    change (Byte.eqb REQ_REMOVE REQ_GET) with false. cbv iota zeta. f_equal. lia.
  - reflexivity.
Qed.

(** A record of which only a part has arrived is not decoded. *)
Lemma decode_partial_record (r : spec.Request) (n : nat) :
  spec.key_fits r ->
  (N.of_nat (length (spec.record big_endian r)) < 2 ^ 64)%N ->
  (0 < n < length (spec.record big_endian r))%nat ->
  decode big_endian (take n (spec.record big_endian r)) = Incomplete.
Proof.
  intros Hkey Hsize Hn. rewrite length_record in Hsize, Hn.
  destruct r as [key|key flags value|key|]; simpl in Hkey; cbn [spec.record];
    [| | | lia];
    (destruct n as [|[|m]]; [lia | reflexivity |]); cbn [take].
  - rewrite decode_keyed by (now left).
    rewrite (key_length_byte key Hkey), length_take. decide_ltb. reflexivity.
  - rewrite decode_put. rewrite (key_length_byte key Hkey), Nat2N.id. cbv zeta.
    set (full := (key ++ flags
                    :: u64_host_byte_order big_endian (N.of_nat (length value))
                    ++ value)%list).
    assert (Hfull : length full = (length key + 9 + length value)%nat).
    { unfold full. rewrite length_app. cbn [length].
      rewrite length_app, length_u64_host_byte_order. lia. }
    rewrite length_take, Hfull.
    replace (m `min` (length key + 9 + length value))%nat with m by lia.
    destruct (N.ltb_spec (N.of_nat m) (N.of_nat (length key))); [reflexivity |].
    destruct (N.ltb_spec (N.of_nat m) (N.of_nat (length key) + 1)); [reflexivity |].
    destruct (N.ltb_spec (N.of_nat m) (N.of_nat (length key) + 9)); [reflexivity |].
    assert (Hread : read_u64_host_byte_order big_endian
                      (drop (length key + 1) (take m full))
                    = N.of_nat (length value)).
    { replace m with ((length key + 1) + (m - (length key + 1)))%nat at 1 by lia.
      rewrite <- take_drop_commute, read_u64_take by lia.
      unfold full. rewrite <- drop_drop, drop_app_length. cbn [drop].
      apply read_u64_of_u64. lia. }
    rewrite Hread.
    replace (size_add (11 + N.of_nat (length key)) (N.of_nat (length value)))
      with (11 + N.of_nat (length key) + N.of_nat (length value))%N
      by (unfold size_add; symmetry; apply N.mod_small; lia).
    decide_ltb. reflexivity.
  - rewrite decode_keyed by (now right).
    rewrite (key_length_byte key Hkey), length_take. decide_ltb. reflexivity.
Qed.

(** With a partial record in the accumulator the call returns with the
    server exactly as it was: nothing is consumed. *)
Lemma process_client_data_retains_partial_record
    (srv : IpcServer) (r : spec.Request) (n : nat) :
  spec.key_fits r ->
  (N.of_nat (length (spec.record big_endian r)) < 2 ^ 64)%N ->
  (0 < n < length (spec.record big_endian r))%nat ->
  read_buf (client srv) = take n (spec.record big_endian r) ->
  process_client_data big_endian srv = Returns srv.
Proof.
  intros Hkey Hsize Hn Hbuf. apply process_loop_incomplete.
  rewrite Hbuf. now apply decode_partial_record.
Qed.

(** With a complete GET, PUT or REMOVE record at the head of the accumulator
    a loop turn erases exactly the bytes of the record and goes on with what
    follows it. *)
Lemma process_loop_consumes_complete_record
    (srv : IpcServer) (r : spec.Request) (rest : list byte) (turns : nat) :
  spec.key_fits r ->
  (N.of_nat (length (spec.record big_endian r ++ rest)) < 2 ^ 64)%N ->
  r <> spec.StopRequest ->
  read_buf (client srv) = (spec.record big_endian r ++ rest)%list ->
  exists srv',
    process_loop big_endian (S turns) srv = process_loop big_endian turns srv'
    /\ read_buf (client srv') = rest.
Proof.
  intros Hkey Hsize Hstop Hbuf.
  pose proof (process_loop_erases_offset big_endian turns srv) as H.
  rewrite Hbuf, (decode_complete_record r rest Hkey Hsize) in H.
  destruct r as [key|key flags value|key|]; [| | | contradiction];
    cbn [spec.decoded] in H; destruct H as (srv' & Hturn & Hread);
    exists srv'; (split; [exact Hturn |]);
    rewrite Hread, Nat2N.id; apply drop_app_length.
Qed.

End records.

(** C7. When a loop turn of [process_client_data] finds a record whose first
    byte is none of GET, PUT, REMOVE and STOP, the call returns with the loop
    stop initiated and nothing else changed: the connection (its write queue
    and what was handed to [uv_write] included) and the storage client are as
    before, so no response is written and no operation is scheduled. *)
Theorem unknown_request_type_stops_without_response
    (big_endian : bool) (srv : IpcServer) (request_type : byte)
    (rest : list byte) (turns : nat) :
  read_buf (client srv) = request_type :: rest ->
  request_type <> REQ_GET -> request_type <> REQ_PUT ->
  request_type <> REQ_REMOVE -> request_type <> REQ_STOP ->
  process_loop big_endian (S turns) srv = Returns (stop srv)
  /\ process_client_data big_endian srv = Returns (stop srv)
  /\ client (stop srv) = client srv
  /\ _storage_client (stop srv) = _storage_client srv
  /\ loop_stopped (stop srv) = true.
Proof.
  intros Hbuf H0 H1 H2 H3.
  assert (Hloop : forall n, process_loop big_endian (S n) srv = Returns (stop srv)).
  { intros n. simpl. rewrite Hbuf.
    now rewrite (decode_unknown big_endian request_type rest H0 H1 H2 H3). }
  repeat split.
  - apply Hloop.
  - unfold process_client_data. rewrite Hbuf. apply Hloop.
Qed.

Lemma unknown_request_type_stops_without_response_witness :
  process_client_data false
    {| client := set_read_buf [x04; x01; xaa] (client server);
       _storage_client := _storage_client server; loop_stopped := false |}
  = Returns
      {| client := set_read_buf [x04; x01; xaa] (client server);
         _storage_client := _storage_client server; loop_stopped := true |}.
Proof.
  refine (proj1 (proj2 (unknown_request_type_stops_without_response false
            {| client := set_read_buf [x04; x01; xaa] (client server);
               _storage_client := _storage_client server; loop_stopped := false |}
            x04 [x01; xaa] 0 eq_refl _ _ _ _))); discriminate.
Defined.



(** C5 at a PUT record whose value length field holds 2^64 - 1: the sum
    [offset + value_len] of the completeness check wraps to 10, which is not
    above the 11 bytes at hand, so the record, of which no value byte has
    arrived, is not retained; the turn goes on to copy [value_len] bytes from
    the accumulator, which leaves the buffer. *)
Theorem put_value_length_wraps_past_the_completeness_check (big_endian : bool) :
  read_u64_host_byte_order big_endian (drop 3 put_with_wrapping_length)
    = (2 ^ 64 - 1)%N
  /\ size_add 11 (2 ^ 64 - 1) = 10%N
  /\ decode big_endian put_with_wrapping_length = OutOfRange
  /\ forall srv : IpcServer,
       on_client_read big_endian put_with_wrapping_length
         {| client := set_read_buf [] (client srv);
            _storage_client := _storage_client srv;
            loop_stopped := loop_stopped srv |}
       = Undefined.
Proof.
  destruct big_endian;
    (split; [vm_compute; reflexivity |]);
    (split; [vm_compute; reflexivity |]);
    (split; [vm_compute; reflexivity |]);
    intros srv; vm_compute; reflexivity.
Qed.

(** ** IPC server: the write queue of a connection *)

Section write_queue.
Implicit Types (c : ClientConnection) (all : list (list byte))
  (evs : list WriteEvent).

Lemma new_connection_queue_inv script : queue_inv [] (new_connection script).
Proof.
  split; [right; split; reflexivity |].
  exists []. split; [reflexivity | apply sublist_nil_l].
Qed.

Lemma flush_queue_inv all c : queue_inv all c -> queue_inv all (flush_write_queue c).
Proof.
  intros [Hflag (done & Hall & Hsub)]. unfold flush_write_queue.
  destruct (writing c) eqn:Ew.
  { split; [rewrite Ew; exact Hflag | exists done; now split]. }
  destruct (write_queue c) as [|blob queue] eqn:Eq.
  { split; [rewrite Ew; exact Hflag | exists done; rewrite Eq; now split]. }
  destruct Hflag as [[Hf _]|[_ Hreqs]]; [discriminate |].
  unfold uv_write. simpl.
  destruct (hd 0%Z (uv_write_script (handle c)) =? 0)%Z; simpl.
  - split; [left; rewrite Hreqs; split; reflexivity |].
    exists (done ++ [blob])%list. split.
    + rewrite Hall. now rewrite <- app_assoc.
    + apply sublist_app; [exact Hsub | reflexivity].
  - split; [right; split; [reflexivity | exact Hreqs] |].
    exists (done ++ [blob])%list. split.
    + rewrite Hall. now rewrite <- app_assoc.
    + now apply sublist_inserts_r.
Qed.

Lemma send_response_queue_inv all c blob :
  queue_inv all c -> queue_inv (all ++ [blob]) (send_response blob c).
Proof.
  intros [Hflag (done & Hall & Hsub)]. apply flush_queue_inv.
  split; [exact Hflag |]. exists done. simpl. split; [| exact Hsub].
  rewrite Hall. now rewrite <- app_assoc.
Qed.

Lemma write_step_queue_inv all c ev :
  queue_inv all c -> queue_inv (all ++ sent [ev]) (write_step ev c).
Proof.
  intros Hinv. destruct ev as [blob|status]; simpl.
  - now apply send_response_queue_inv.
  - rewrite app_nil_r. destruct (write_reqs (handle c)) as [|n] eqn:En;
      [exact Hinv |].
    destruct Hinv as [Hflag (done & Hall & Hsub)].
    apply flush_queue_inv. split.
    + right. simpl. split; [reflexivity |].
      destruct Hflag as [[_ H1]|[_ H0]]; lia.
    + exists done. now split.
Qed.

Lemma sent_cons ev evs : sent (ev :: evs) = (sent [ev] ++ sent evs)%list.
Proof. destruct ev; reflexivity. Qed.

Lemma sent_app evs1 evs2 : sent (evs1 ++ evs2) = (sent evs1 ++ sent evs2)%list.
Proof. apply omap_app. Qed.

Lemma write_run_app evs1 evs2 c :
  write_run (evs1 ++ evs2) c = write_run evs2 (write_run evs1 c).
Proof. apply foldl_app. Qed.

Lemma write_run_queue_inv evs : forall all c,
  queue_inv all c -> queue_inv (all ++ sent evs) (write_run evs c).
Proof.
  induction evs as [|ev evs IH]; intros all c Hinv.
  - simpl. now rewrite app_nil_r.
  - rewrite sent_cons, app_assoc. simpl. apply IH.
    now apply write_step_queue_inv.
Qed.

(** Without a failing [uv_write] nothing is dropped. *)

Lemma flush_lossless all c : lossless all c -> lossless all (flush_write_queue c).
Proof.
  intros [Hscript Hall]. unfold flush_write_queue.
  destruct (writing c); [now split |].
  destruct (write_queue c) as [|blob queue] eqn:Eq; [split; [| rewrite Eq]; done |].
  unfold uv_write. simpl.
  assert (Hhd : hd 0%Z (uv_write_script (handle c)) = 0%Z).
  { destruct Hscript; [reflexivity | assumption]. }
  rewrite Hhd. simpl. split.
  - destruct Hscript; [constructor | assumption].
  - simpl. rewrite <- Hall. now rewrite <- app_assoc.
Qed.

Lemma write_step_lossless all c ev :
  lossless all c -> lossless (all ++ sent [ev]) (write_step ev c).
Proof.
  intros [Hscript Hall]. destruct ev as [blob|status]; simpl.
  - apply flush_lossless. split; [exact Hscript |]. simpl.
    rewrite <- Hall. now rewrite app_assoc.
  - rewrite app_nil_r. destruct (write_reqs (handle c)); [now split |].
    apply flush_lossless. now split.
Qed.

Lemma write_run_lossless evs : forall all c,
  lossless all c -> lossless (all ++ sent evs) (write_run evs c).
Proof.
  induction evs as [|ev evs IH]; intros all c Hinv.
  - simpl. now rewrite app_nil_r.
  - rewrite sent_cons, app_assoc. simpl. apply IH.
    now apply write_step_lossless.
Qed.

(** The GET continuation on an OK response is two sends in a row: the
    header blob, then the body blob. *)
Lemma get_reply_is_header_then_body big_endian (response : StorageResponse) c :
  result response = OK ->
  reply big_endian GetReply response c
  = write_run [Send (get_header big_endian (length (data response)));
               Send (data response)] c.
Proof. intros H. unfold reply. now rewrite H. Qed.

End write_queue.




(** ** IPC server: what the server does to the write side of a connection *)

Section server_writes.
Variable big_endian : bool.
Variable strerror : Z -> string.
Implicit Types (c : ClientConnection) (srv : IpcServer) (buf : list byte)
  (evs : list WriteEvent).

Lemma set_read_buf_same c : set_read_buf (read_buf c) c = c.
Proof. now destruct c. Qed.

Lemma set_read_buf_twice buf1 buf2 c :
  set_read_buf buf1 (set_read_buf buf2 c) = set_read_buf buf1 c.
Proof. reflexivity. Qed.

Lemma flush_write_queue_set_read_buf buf c :
  flush_write_queue (set_read_buf buf c) = set_read_buf buf (flush_write_queue c).
Proof.
  unfold flush_write_queue. simpl. destruct (writing c); [reflexivity |].
  destruct (write_queue c); reflexivity.
Qed.

Lemma write_step_set_read_buf ev buf c :
  write_step ev (set_read_buf buf c) = set_read_buf buf (write_step ev c).
Proof.
  destruct ev as [blob|status]; simpl.
  - unfold send_response. simpl. apply (flush_write_queue_set_read_buf buf
      {| handle := handle c; read_buf := read_buf c;
         write_queue := write_queue c ++ [blob]; writing := writing c |}).
  - destruct (write_reqs (handle c)); [reflexivity |].
    unfold on_write_complete. simpl.
    apply (flush_write_queue_set_read_buf buf
      {| handle := _; read_buf := read_buf c;
         write_queue := write_queue c; writing := false |}).
Qed.

Lemma write_run_set_read_buf evs : forall buf c,
  write_run evs (set_read_buf buf c) = set_read_buf buf (write_run evs c).
Proof.
  induction evs as [|ev evs IH]; intros buf c; [reflexivity |].
  simpl. rewrite write_step_set_read_buf. apply IH.
Qed.

Lemma send_simple_response_is_a_send op response c :
  exists blob, send_simple_response op response c = write_run [Send blob] c.
Proof.
  unfold send_simple_response. destruct (result response); eexists; reflexivity.
Qed.

Lemma reply_is_sends k response c :
  exists blobs, reply big_endian k response c = write_run (Send <$> blobs) c.
Proof.
  destruct k; simpl.
  - destruct (result response) eqn:Hr.
    + exists [get_header big_endian (length (data response)); data response].
      reflexivity.
    + exists [[STATUS_NOOP]]. unfold send_simple_response. now rewrite Hr.
    + exists [error_blob (error response)]. unfold send_simple_response.
      now rewrite Hr.
  - destruct (send_simple_response_is_a_send "PUT" response c) as [blob H].
    exists [blob]. exact H.
  - destruct (send_simple_response_is_a_send "REMOVE" response c) as [blob H].
    exists [blob]. exact H.
Qed.

Lemma deliver_is_sends calls : forall c,
  exists blobs, deliver big_endian calls c = write_run (Send <$> blobs) c.
Proof.
  induction calls as [|call calls IH]; intros c.
  - exists []. reflexivity.
  - unfold deliver. simpl.
    destruct (reply_is_sends (fst call) (snd call) c) as [blobs1 H1].
    rewrite H1. destruct (IH (write_run (Send <$> blobs1) c)) as [blobs2 H2].
    unfold deliver in H2. rewrite H2.
    exists (blobs1 ++ blobs2)%list. now rewrite fmap_app, write_run_app.
Qed.

Lemma client_is_sends c :
  exists blobs buf, c = set_read_buf buf (write_run (Send <$> blobs) c).
Proof. exists [], (read_buf c). simpl. now rewrite set_read_buf_same. Qed.

Lemma then_sends c c1 c2 blobs1 buf1 :
  c1 = set_read_buf buf1 (write_run (Send <$> blobs1) c) ->
  (exists blobs buf, c2 = set_read_buf buf (write_run (Send <$> blobs) c1)) ->
  exists blobs buf, c2 = set_read_buf buf (write_run (Send <$> blobs) c).
Proof.
  intros -> (blobs2 & buf2 & ->). exists (blobs1 ++ blobs2)%list, buf2.
  rewrite write_run_set_read_buf, set_read_buf_twice.
  now rewrite fmap_app, write_run_app.
Qed.

Lemma dispatched_is_sends offset srv r :
  exists blobs buf,
    client (dispatched big_endian offset srv r)
    = set_read_buf buf (write_run (Send <$> blobs) (client srv)).
Proof.
  destruct (deliver_is_sends (snd r) (client srv)) as [blobs H].
  exists blobs. eexists. unfold dispatched. simpl client. rewrite H. reflexivity.
Qed.

(** A call of [process_client_data] changes the accumulator and hands blobs
    to [send_response]; it does nothing else to the connection. *)
Lemma process_loop_is_sends turns : forall srv srv',
  process_loop big_endian turns srv = Returns srv' ->
  exists blobs buf,
    client srv' = set_read_buf buf (write_run (Send <$> blobs) (client srv)).
Proof.
  induction turns as [|turns IH]; intros srv srv' Hrun.
  - injection Hrun as <-. apply client_is_sends.
  - simpl in Hrun. destruct (read_buf (client srv)) as [|b tail] eqn:Hbuf.
    { injection Hrun as <-. apply client_is_sends. }
    destruct (decode big_endian (b :: tail));
      try (injection Hrun as <-; apply client_is_sends);
      try discriminate;
      try (match type of Hrun with
           | process_loop _ _ (dispatched _ ?offset _ ?r) = _ =>
               destruct (dispatched_is_sends offset srv r) as (blobs1 & buf1 & H1)
           end;
           exact (then_sends _ _ _ _ _ H1 (IH _ _ Hrun))).
    injection Hrun as <-. exists [[STATUS_OK]], tail. simpl client.
    apply (write_step_set_read_buf (Send [STATUS_OK]) tail (client srv)).
Qed.

(** Every event the loop delivers to the server acts on the write side of
    the connection as a sequence of [send_response] calls and write
    completions. *)
Lemma server_step_is_a_write_schedule ev srv srv' :
  server_step big_endian strerror ev srv = Returns srv' ->
  exists evs buf, client srv' = set_read_buf buf (write_run evs (client srv)).
Proof.
  destruct ev as [bytes|status|h bytes|msgs]; simpl; intros Hstep.
  - unfold on_client_read, process_client_data in Hstep.
    destruct (process_loop_is_sends _ _ _ Hstep) as (blobs & buf & H).
    exists (Send <$> blobs), buf. rewrite H. simpl client.
    now rewrite write_run_set_read_buf, set_read_buf_twice.
  - exists [Completed status],
      (read_buf (write_run [Completed status] (client srv))).
    rewrite set_read_buf_same. simpl.
    destruct (write_reqs (handle (client srv))); now injection Hstep as <-.
  - injection Hstep as <-. exists [], (read_buf (client srv)).
    simpl. now rewrite set_read_buf_same.
  - injection Hstep as <-. simpl client.
    destruct (deliver_is_sends (snd (check_multi_info strerror msgs
                                       (_storage_client srv))) (client srv))
      as [blobs H].
    exists (Send <$> blobs), (read_buf (write_run (Send <$> blobs) (client srv))).
    rewrite set_read_buf_same. exact H.
Qed.

Lemma server_run_is_a_write_schedule events : forall srv srv',
  server_run big_endian strerror events srv = Returns srv' ->
  exists evs buf, client srv' = set_read_buf buf (write_run evs (client srv)).
Proof.
  induction events as [|ev events IH]; intros srv srv' Hrun.
  - injection Hrun as <-. exists [], (read_buf (client srv)).
    simpl. now rewrite set_read_buf_same.
  - simpl in Hrun.
    destruct (server_step big_endian strerror ev srv) as [srv1|] eqn:Hstep;
      [| discriminate].
    destruct (server_step_is_a_write_schedule _ _ _ Hstep) as (evs1 & buf1 & H1).
    destruct (IH _ _ Hrun) as (evs2 & buf2 & H2).
    exists (evs1 ++ evs2)%list, buf2. rewrite H2, H1.
    rewrite write_run_set_read_buf, set_read_buf_twice.
    now rewrite write_run_app.
Qed.

(** So the write side stays in order on every run of the server that starts
    with a fresh connection. *)
Lemma server_run_keeps_the_write_side_in_order events srv srv' script :
  client srv = new_connection script ->
  server_run big_endian strerror events srv = Returns srv' ->
  exists evs, queue_inv (sent evs) (client srv').
Proof.
  intros Hnew Hrun.
  destruct (server_run_is_a_write_schedule _ _ _ Hrun) as (evs & buf & H).
  exists evs. rewrite H, Hnew.
  pose proof (write_run_queue_inv evs [] _ (new_connection_queue_inv script))
    as Hinv.
  rewrite app_nil_l in Hinv. exact Hinv.
Qed.
End server_writes.

(** ** Configuration: numbers *)

Lemma uint_of_string_digits (s : string) (d : uint) :
  NilEmpty.uint_of_string s = Some d ->
  Forall (fun c => (48 <= nat_of_ascii c <= 57)%nat) (list_ascii_of_string s).
Proof.
  revert d. induction s as [|c s IH]; intros d H; simpl; [constructor |].
  simpl in H. destruct (NilEmpty.uint_of_string s) as [d'|] eqn:E;
    [| discriminate].
  constructor; [| now apply (IH d')].
  apply uint_of_char_spec in H.
  destruct H as [[-> _]|[[-> _]|[[-> _]|[[-> _]|[[-> _]|[[-> _]|[[-> _]|[[-> _]|
                  [[-> _]|[-> _]]]]]]]]]]; split; apply Nat.leb_le; reflexivity.
Qed.

(** X1. [parse_int] reads back what [std::to_string] prints: for every
    number within the range of the type it yields that number, and it
    rejects the print of every number above the range. *)
Theorem parse_int_reads_back_to_string (max n : N) :
  parse_int max (str.of_N n) = if (n <=? max)%N then Some n else None.
Proof.
  unfold parse_int, str.of_N.
  assert (H : exists d, NilZero.uint_of_string (NilZero.string_of_uint (N.to_uint n))
                        = Some d /\ N.of_uint d = n).
  { destruct (N.to_uint n) as [| | | | | | | | | |] eqn:E;
      try (eexists; split;
           [apply NilZero.usu; discriminate
           | rewrite <- E; apply DecimalN.Unsigned.of_to]).
    exists Decimal.zero. split; [reflexivity |].
    rewrite <- (DecimalN.Unsigned.of_to n), E. reflexivity. }
  destruct H as (d & -> & ->). reflexivity.
Qed.

(** X2. Whatever [parse_int] accepts is a non-empty run of decimal digits
    (no sign, no blank, no trailing text), and the number it yields is
    within the range of the type. *)
Theorem parse_int_accepts_only_digits_in_range (max : N) (s : string) (n : N) :
  parse_int max s = Some n ->
  s <> ""
  /\ Forall (fun c => (48 <= nat_of_ascii c <= 57)%nat) (list_ascii_of_string s)
  /\ (n <= max)%N.
Proof.
  unfold parse_int. intros H.
  destruct (NilZero.uint_of_string s) as [d|] eqn:E; [| discriminate].
  destruct (N.leb_spec (N.of_uint d) max); [| discriminate].
  injection H as <-.
  split; [| split; [| assumption]].
  - intros ->. discriminate.
  - destruct s; [discriminate |]. now apply (uint_of_string_digits _ d).
Qed.

Lemma parse_int_accepts_only_digits_in_range_witness :
  "007" <> ""
  /\ Forall (fun c => (48 <= nat_of_ascii c <= 57)%nat) (list_ascii_of_string "007")
  /\ (7 <= UINT_MAX)%N.
Proof.
  apply (parse_int_accepts_only_digits_in_range UINT_MAX "007" 7).
  vm_compute. reflexivity.
Defined.

(** ** Configuration: attributes *)

Lemma parse_attr_is_Some (env : gmap string string) (i : N) (c : Config) :
  is_Some (parse_attr env i c)
  <-> is_Some (getenv env ("CRSH_ATTR_KEY_" ++ str.of_N i))
      /\ is_Some (getenv env ("CRSH_ATTR_VALUE_" ++ str.of_N i)).
Proof.
  unfold parse_attr.
  destruct (getenv env ("CRSH_ATTR_KEY_" ++ str.of_N i)) as [key|];
    [| split; [intros [? [=]] | intros [[? [=]] _]]].
  destruct (getenv env ("CRSH_ATTR_VALUE_" ++ str.of_N i)) as [value|];
    [| split; [intros [? [=]] | intros [_ [? [=]]]]].
  split; [eauto |]. intros _.
  destruct (String.eqb key "bearer-token"); [eauto |].
  destruct (String.eqb key "layout"); [eauto |].
  destruct (String.eqb key "header"); [| eauto].
  destruct (str.find "=" value); eauto.
Qed.

(** X3. The attribute loop of [parse_config] succeeds exactly when, for
    every index below the attribute count, both the key variable and the
    value variable are set; their contents never make it fail. *)
Theorem parse_attrs_succeeds_iff_pairs_are_set
    (env : gmap string string) (todo : nat) (i : N) (c : Config) :
  is_Some (parse_attrs env todo i c)
  <-> forall j : nat, (j < todo)%nat ->
        is_Some (getenv env ("CRSH_ATTR_KEY_" ++ str.of_N (i + N.of_nat j)))
        /\ is_Some (getenv env ("CRSH_ATTR_VALUE_" ++ str.of_N (i + N.of_nat j))).
Proof.
  revert i c. induction todo as [|todo IH]; intros i c.
  - simpl. split; [intros _ j Hj; lia | eauto].
  - simpl. split.
    + intros H j Hj.
      destruct (parse_attr env i c) as [c'|] eqn:E; [| destruct H; discriminate].
      destruct j as [|j].
      * rewrite N.add_0_r. apply (parse_attr_is_Some env i c). rewrite E. eauto.
      * replace (i + N.of_nat (S j))%N with (N.succ i + N.of_nat j)%N by lia.
        apply (proj1 (IH (N.succ i) c') H). lia.
    + intros H.
      destruct (proj2 (parse_attr_is_Some env i c)) as [c' E].
      { specialize (H 0%nat ltac:(lia)). now rewrite N.add_0_r in H. }
      rewrite E. apply IH. intros j Hj.
      replace (N.succ i + N.of_nat j)%N with (i + N.of_nat (S j))%N by lia.
      apply H. lia.
Qed.

Lemma parse_attr_keeps (env : gmap string string) (i : N) (c c' : Config) :
  parse_attr env i c = Some c' ->
  ipc_endpoint c' = ipc_endpoint c /\ config.url c' = config.url c
  /\ idle_timeout_seconds c' = idle_timeout_seconds c
  /\ config.headers c `prefix_of` config.headers c'.
Proof.
  unfold parse_attr.
  destruct (getenv env _) as [key|]; [| discriminate].
  destruct (getenv env _) as [value|]; [| discriminate].
  destruct (String.eqb key "bearer-token"); [intros [= <-]; now repeat split |].
  destruct (String.eqb key "layout"); [intros [= <-]; now repeat split |].
  destruct (String.eqb key "header"); [| intros [= <-]; now repeat split].
  destruct (str.find "=" value); intros [= <-]; repeat split; try reflexivity.
  simpl. now apply prefix_app_r.
Qed.

(** The attributes change neither the IPC endpoint nor the origin URL nor
    the idle timeout, and the headers collected before stay, in order, at
    the front of the header list. *)
Lemma parse_attrs_keeps
    (env : gmap string string) (todo : nat) (i : N) (c c' : Config) :
  parse_attrs env todo i c = Some c' ->
  ipc_endpoint c' = ipc_endpoint c /\ config.url c' = config.url c
  /\ idle_timeout_seconds c' = idle_timeout_seconds c
  /\ config.headers c `prefix_of` config.headers c'.
Proof.
  revert i c. induction todo as [|todo IH]; intros i c; simpl.
  - intros [= <-]. now repeat split.
  - destruct (parse_attr env i c) as [c1|] eqn:E; [| discriminate]. intros H.
    destruct (parse_attr_keeps env i c c1 E) as (H1 & H2 & H3 & H4).
    destruct (IH _ _ H) as (G1 & G2 & G3 & G4).
    repeat split; try congruence. now transitivity (config.headers c1).
Qed.

Lemma parse_int_in_range (max : N) (s : string) (n : N) :
  parse_int max s = Some n -> (n <= max)%N.
Proof.
  unfold parse_int. destruct (NilZero.uint_of_string s) as [d|]; [| discriminate].
  destruct (N.leb_spec (N.of_uint d) max); [| discriminate].
  now intros [= <-].
Qed.

Lemma parse_config_idle_timeout_fits
    (win32 : bool) (env : gmap string string) (c : Config) :
  parse_config win32 env = Some c -> (idle_timeout_seconds c <= UINT_MAX)%N.
Proof.
  unfold parse_config. intros H.
  destruct (getenv_nonempty env "CRSH_IPC_ENDPOINT"); [| discriminate].
  destruct (getenv_nonempty env "CRSH_URL"); [| discriminate].
  destruct (parse_int UINT_MAX _) as [idle|] eqn:Hi; [| discriminate].
  destruct (parse_int SIZE_MAX _); [| discriminate].
  apply parse_attrs_keeps in H. destruct H as (_ & _ & H3 & _).
  rewrite H3. cbn [idle_timeout_seconds]. now apply parse_int_in_range in Hi.
Qed.

(** ** Configuration: the header attribute *)

Lemma find_first_char (c : ascii) (name rest : string) :
  str.find c name = None ->
  str.find c (name ++ String c rest) = Some (String.length name).
Proof.
  induction name as [|d name IH]; simpl.
  - intros _. now rewrite Ascii.eqb_refl.
  - destruct (Ascii.eqb d c); [discriminate |].
    destruct (str.find c name); [discriminate |]. intros _. now rewrite IH.
Qed.

Lemma substring_prefix (a b : string) :
  String.substring 0 (String.length a) (a ++ b) = a.
Proof.
  induction a as [|c a IH]; simpl; [now destruct b | now rewrite IH].
Qed.

Lemma append_assoc (a b c : string) : (a ++ b) ++ c = a ++ (b ++ c).
Proof.
  induction a as [|d a IH]; [reflexivity |].
  change (String d ((a ++ b) ++ c) = String d (a ++ (b ++ c))). now rewrite IH.
Qed.

Lemma substring_whole (s : string) :
  String.substring 0 (String.length s) s = s.
Proof. induction s as [|c s IH]; simpl; [reflexivity | now rewrite IH]. Qed.

Lemma substr_from_suffix (a b : string) :
  str.substr_from (a ++ b) (String.length a) = b.
Proof.
  unfold str.substr_from. rewrite length_append.
  replace (String.length a + String.length b - String.length a)%nat
    with (String.length b) by lia.
  induction a as [|c a IH]; simpl; [apply substring_whole | exact IH].
Qed.

(** X4. A [header] attribute is split at its first ['=']: the text before
    it is the header name, everything after it, further ['='] included, the
    header value, and the pair is appended to the header list.  A [header]
    attribute without ['='] leaves the configuration as it is. *)
Theorem header_attribute_splits_at_first_equals
    (env : gmap string string) (i : N) (c : Config) (text : string) :
  getenv env ("CRSH_ATTR_KEY_" ++ str.of_N i) = Some "header" ->
  getenv env ("CRSH_ATTR_VALUE_" ++ str.of_N i) = Some text ->
  (forall name value : string,
     str.find "=" name = None -> text = name ++ "=" ++ value ->
     parse_attr env i c
     = Some (config.set_headers (config.headers c ++ [(name, value)]) c))
  /\ (str.find "=" text = None -> parse_attr env i c = Some c).
Proof.
  intros Hk Hv. unfold parse_attr. rewrite Hk, Hv. simpl String.eqb. split.
  - intros name value Hname ->.
    change (name ++ "=" ++ value) with (name ++ String "=" value).
    rewrite (find_first_char "=" name value Hname).
    unfold str.substr. rewrite substring_prefix.
    replace (String.length name + 1)%nat
      with (String.length (name ++ "=")) by (rewrite length_append; reflexivity).
    replace (name ++ String "=" value) with ((name ++ "=") ++ value)
      by (rewrite append_assoc; reflexivity).
    now rewrite substr_from_suffix.
  - intros ->. reflexivity.
Qed.

Lemma header_attribute_splits_at_first_equals_witness :
  parse_attr cases.env_header_attribute 0 Config_default
  = Some (config.set_headers [("X-Tag", "a=b")] Config_default).
Proof.
  refine (proj1 (header_attribute_splits_at_first_equals
                   cases.env_header_attribute 0 Config_default "X-Tag=a=b" _ _)
            "X-Tag" "a=b" _ _);
    vm_compute; reflexivity.
Defined.

(** ** Configuration: what an accepted configuration is like *)

Lemma getenv_nonempty_Some (env : gmap string string) (name s : string) :
  getenv_nonempty env name = Some s <-> getenv env name = Some s /\ s <> "".
Proof.
  unfold getenv_nonempty. destruct (getenv env name) as [t|].
  - destruct t; simpl; split.
    + discriminate.
    + intros [[= <-] H]. now destruct H.
    + intros [= <-]. split; [reflexivity | discriminate].
    + intros [[= <-] _]. reflexivity.
  - split; [discriminate | intros [[=] _]].
Qed.

(** X5. A configuration that [parse_config] accepts has the non-empty
    content of CRSH_IPC_ENDPOINT as its endpoint (behind the pipe namespace
    on Windows), the non-empty content of CRSH_URL as its origin, and an idle
    timeout that fits an [unsigned int]. *)
Theorem parse_config_result_comes_from_the_required_variables
    (win32 : bool) (env : gmap string string) (c : Config) :
  parse_config win32 env = Some c ->
  exists endpoint origin : string,
    getenv env "CRSH_IPC_ENDPOINT" = Some endpoint /\ endpoint <> ""
    /\ ipc_endpoint c = (if win32 then "\\.\pipe\" ++ endpoint else endpoint)
    /\ getenv env "CRSH_URL" = Some origin /\ origin <> ""
    /\ config.url c = origin
    /\ (idle_timeout_seconds c <= UINT_MAX)%N.
Proof.
  unfold parse_config. intros H.
  destruct (getenv_nonempty env "CRSH_IPC_ENDPOINT") as [endpoint|] eqn:He;
    [| discriminate].
  destruct (getenv_nonempty env "CRSH_URL") as [origin|] eqn:Hu; [| discriminate].
  destruct (parse_int UINT_MAX _) as [idle|] eqn:Hi; [| discriminate].
  destruct (parse_int SIZE_MAX _) as [num|] eqn:Hn; [| discriminate].
  apply parse_attrs_keeps in H.
  destruct H as (H1 & H2 & H3 & _). simpl in H1, H2, H3.
  apply getenv_nonempty_Some in He, Hu. destruct He as [He He'], Hu as [Hu Hu'].
  exists endpoint, origin. repeat split; try assumption.
  rewrite H3. now apply parse_int_in_range in Hi.
Qed.

Lemma parse_config_result_comes_from_the_required_variables_witness :
  exists endpoint origin : string,
    getenv env_unknown_attribute "CRSH_IPC_ENDPOINT" = Some endpoint
    /\ endpoint <> ""
    /\ "\\.\pipe\/tmp/crsh.sock" = "\\.\pipe\" ++ endpoint
    /\ getenv env_unknown_attribute "CRSH_URL" = Some origin /\ origin <> ""
    /\ "https://c.example" = origin
    /\ (0 <= UINT_MAX)%N.
Proof.
  apply (parse_config_result_comes_from_the_required_variables true
           env_unknown_attribute
           {| ipc_endpoint := "\\.\pipe\/tmp/crsh.sock";
              config.url := "https://c.example";
              idle_timeout_seconds := 0; bearer_token := None;
              layout := FLAT; config.headers := [] |}).
  vm_compute. reflexivity.
Defined.

(** X6. The idle timer of an accepted configuration: with a timeout of zero
    seconds [reset_idle_timer] leaves the timer as it is (so it is never
    armed), otherwise it arms it with exactly a thousand times the seconds;
    the product in [uint64_t] does not wrap. *)
Theorem idle_timer_is_armed_with_exact_milliseconds
    (win32 : bool) (env : gmap string string) (c : Config) (timer : option N) :
  parse_config win32 env = Some c ->
  accept.reset_idle_timer c timer
  = if (idle_timeout_seconds c =? 0)%N then timer
    else Some (1000 * idle_timeout_seconds c)%N.
Proof.
  intros H. pose proof (parse_config_idle_timeout_fits _ _ _ H) as Hidle.
  unfold accept.reset_idle_timer, UINT_MAX in *.
  destruct (idle_timeout_seconds c =? 0)%N; [reflexivity |].
  f_equal. rewrite N.mod_small; lia.
Qed.

Lemma idle_timer_is_armed_with_exact_milliseconds_witness :
  accept.reset_idle_timer
    {| ipc_endpoint := "s"; config.url := "http://h"; idle_timeout_seconds := 90;
       bearer_token := None; layout := SUBDIRS; config.headers := [] |} None
  = Some 90000%N.
Proof.
  apply (idle_timer_is_armed_with_exact_milliseconds false
           (<["CRSH_IPC_ENDPOINT" := "s"]>
              (<["CRSH_URL" := "http://h"]> (<["CRSH_IDLE_TIMEOUT" := "90"]> ∅)))).
  vm_compute. reflexivity.
Defined.

(** ** URL construction: keys and URLs *)

Lemma length_substring (n m : nat) (s : string) :
  String.length (String.substring n m s) = Nat.min m (String.length s - n).
Proof.
  revert n m. induction s as [|c s IH]; intros [|n] [|m]; simpl;
    try reflexivity; rewrite IH; rewrite ?Nat.sub_0_r; reflexivity.
Qed.

Lemma substring_split (n : nat) (s : string) :
  s = String.substring 0 n s ++ String.substring n (String.length s - n) s.
Proof.
  revert n. induction s as [|c s IH]; intros [|n].
  - reflexivity.
  - reflexivity.
  - rewrite Nat.sub_0_r, substring_whole. destruct s; reflexivity.
  - change (String c s = String c (String.substring 0 n s ++
       String.substring n (String.length s - n) s)).
    f_equal. apply IH.
Qed.

Lemma append_inj_length (a1 a2 b1 b2 : string) :
  String.length a1 = String.length a2 ->
  a1 ++ b1 = a2 ++ b2 -> a1 = a2 /\ b1 = b2.
Proof.
  revert a2. induction a1 as [|c a1 IH]; intros [|d a2] Hl H;
    try discriminate Hl.
  - exact (conj eq_refl H).
  - injection Hl as Hl.
    change (String c (a1 ++ b1) = String d (a2 ++ b2)) in H.
    injection H as Hc H. destruct (IH a2 Hl H) as [Ha Hb].
    now rewrite Hc, Ha, Hb.
Qed.

Lemma append_empty_r (s : string) : s ++ "" = s.
Proof.
  induction s as [|c s IH]; [reflexivity |].
  change (String c (s ++ "") = String c s). now rewrite IH.
Qed.

Lemma append_inj_l (a b1 b2 : string) : a ++ b1 = a ++ b2 -> b1 = b2.
Proof. intros H. now destruct (append_inj_length a a b1 b2 eq_refl H). Qed.

Lemma append_inj_r (a1 a2 b : string) : a1 ++ b = a2 ++ b -> a1 = a2.
Proof.
  intros H.
  assert (Hl : String.length a1 = String.length a2).
  { apply (f_equal String.length) in H. rewrite !length_append in H. lia. }
  now destruct (append_inj_length a1 a2 b b Hl H).
Qed.

Lemma layout_part_tells_keys_apart (layout : UrlLayout) (key1 key2 : string) :
  layout <> BAZEL ->
  layout_part layout key1 = layout_part layout key2 -> key1 = key2.
Proof.
  intros Hl H. destruct layout; [contradiction | exact H |]. clear Hl.
  unfold layout_part, str.substr, str.substr_from in H.
  destruct (Nat.leb_spec 2 (String.length key1)) as [H1|H1];
    destruct (Nat.leb_spec 2 (String.length key2)) as [H2|H2].
  - apply append_inj_length in H.
    + destruct H as [Ha Hb]. apply append_inj_l in Hb.
      rewrite (substring_split 2 key1), (substring_split 2 key2).
      now rewrite Ha, Hb.
    + rewrite !length_substring. lia.
  - apply (f_equal String.length) in H.
    rewrite !length_append, !length_substring in H.
    change (String.length "/") with 1%nat in H. lia.
  - apply (f_equal String.length) in H.
    rewrite !length_append, !length_substring in H.
    change (String.length "/") with 1%nat in H. lia.
  - exact H.
Qed.

Lemma bazel_part_tells_keys_of_one_length_apart (key1 key2 : string) :
  String.length key1 = String.length key2 ->
  (String.length key1 <= 64)%nat ->
  layout_part BAZEL key1 = layout_part BAZEL key2 -> key1 = key2.
Proof.
  intros Hlen H64 H. unfold layout_part, sha256_hex_size, str.substr in H.
  apply (append_inj_l "ac/") in H. rewrite <- Hlen in H.
  destruct (Nat.leb_spec 64 (String.length key1)) as [Hge|Hlt].
  - replace 64%nat with (String.length key1) in H at 1 by lia.
    replace 64%nat with (String.length key2) in H by lia.
    now rewrite !substring_whole in H.
  - now apply append_inj_length in H.
Qed.

(** X7. Under the FLAT and the SUBDIRS layout two different keys never get
    the same URL. *)
Theorem flat_and_subdirs_urls_tell_keys_apart (c : Config) (key1 key2 : string) :
  layout c <> BAZEL ->
  build_url c key1 = build_url c key2 -> key1 = key2.
Proof.
  intros Hl H. unfold build_url in H. apply append_inj_l in H.
  now apply (layout_part_tells_keys_apart (layout c)).
Qed.

Lemma flat_and_subdirs_urls_tell_keys_apart_witness :
  "abcdef" = "abcdef".
Proof.
  apply (flat_and_subdirs_urls_tell_keys_apart
           (config_of SUBDIRS "https://c.example/") "abcdef" "abcdef");
    [discriminate | reflexivity].
Defined.

(** X8. Under the BAZEL layout a key of 32 or more characters gets [ac/]
    and then exactly 64 characters: the key followed by padding when it has
    at most 64 characters, its first 64 characters when it has more. *)
Theorem bazel_part_of_a_key_from_32_characters (hex_key : string) :
  (32 <= String.length hex_key)%nat ->
  exists digest,
    layout_part BAZEL hex_key = "ac/" ++ digest
    /\ String.length digest = 64%nat
    /\ ((String.length hex_key <= 64)%nat -> exists pad, digest = hex_key ++ pad)
    /\ ((64 <= String.length hex_key)%nat -> digest = String.substring 0 64 hex_key).
Proof.
  intros H32. unfold layout_part, sha256_hex_size, str.substr.
  destruct (Nat.leb_spec 64 (String.length hex_key)) as [H64|H64];
    eexists; (split; [reflexivity |]); (split; [| split]).
  - rewrite length_substring. lia.
  - intros Hle. exists "".
    replace 64%nat with (String.length hex_key) by lia.
    rewrite substring_whole. symmetry. apply append_empty_r.
  - reflexivity.
  - rewrite length_append, length_substring. lia.
  - intros _. eexists. reflexivity.
  - intros Hge. lia.
Qed.

Lemma bazel_part_of_a_key_from_32_characters_witness :
  exists digest,
    layout_part BAZEL "0123456789abcdef0123456789abcdef01234567" = "ac/" ++ digest
    /\ String.length digest = 64%nat
    /\ ((40 <= 64)%nat ->
        exists pad, digest = "0123456789abcdef0123456789abcdef01234567" ++ pad)
    /\ ((64 <= 40)%nat ->
        digest = String.substring 0 64 "0123456789abcdef0123456789abcdef01234567").
Proof.
  apply (bazel_part_of_a_key_from_32_characters
           "0123456789abcdef0123456789abcdef01234567").
  vm_compute. repeat constructor.
Defined.

(** X9. Under the BAZEL layout two different keys of the same length, of
    at most 64 characters, never get the same URL. *)
Theorem bazel_urls_tell_keys_of_one_length_apart (c : Config) (key1 key2 : string) :
  layout c = BAZEL ->
  String.length key1 = String.length key2 ->
  (String.length key1 <= 64)%nat ->
  build_url c key1 = build_url c key2 -> key1 = key2.
Proof.
  intros Hl Hlen H64 H. unfold build_url in H. apply append_inj_l in H.
  rewrite Hl in H. now apply bazel_part_tells_keys_of_one_length_apart.
Qed.

Lemma bazel_urls_tell_keys_of_one_length_apart_witness : "ab" = "ab".
Proof.
  apply (bazel_urls_tell_keys_of_one_length_apart
           (config_of BAZEL "https://c.example/") "ab" "ab");
    [reflexivity | reflexivity | vm_compute; repeat constructor | reflexivity].
Defined.

(** ** Keys on the wire and in URLs *)

Lemma hex_digit_inj (m n : N) :
  (m < 16)%N -> (n < 16)%N -> hex_digit m = hex_digit n -> m = n.
Proof.
  intros Hm Hn.
  assert (Hcases : forall k : N, (k < 16)%N ->
            (k = 0 \/ k = 1 \/ k = 2 \/ k = 3 \/ k = 4 \/ k = 5 \/ k = 6
             \/ k = 7 \/ k = 8 \/ k = 9 \/ k = 10 \/ k = 11 \/ k = 12
             \/ k = 13 \/ k = 14 \/ k = 15)%N) by (intros k Hk; lia).
  destruct (Hcases m Hm) as [->|[->|[->|[->|[->|[->|[->|[->|[->|[->|[->|
    [->|[->|[->|[->| ->]]]]]]]]]]]]]]];
  destruct (Hcases n Hn) as [->|[->|[->|[->|[->|[->|[->|[->|[->|[->|[->|
    [->|[->|[->|[->| ->]]]]]]]]]]]]]]];
  (reflexivity || (intros H; discriminate H)).
Qed.

Lemma to_N_lt_256 (b : byte) : (Byte.to_N b < 256)%N.
Proof. pose proof (Byte.to_N_bounded b). lia. Qed.

Lemma to_N_inj (a b : byte) : Byte.to_N a = Byte.to_N b -> a = b.
Proof.
  intros H. apply (f_equal Byte.of_N) in H. rewrite !Byte.of_to_N in H.
  now injection H.
Qed.

Lemma format_hex_app (a b : list byte) :
  format_hex (a ++ b)%list = format_hex a ++ format_hex b.
Proof.
  induction a as [|x a IH]; [reflexivity |].
  change (String (hex_digit (Byte.to_N x / 16))
            (String (hex_digit (Byte.to_N x mod 16)) (format_hex (a ++ b)%list))
          = String (hex_digit (Byte.to_N x / 16))
              (String (hex_digit (Byte.to_N x mod 16))
                 (format_hex a ++ format_hex b))).
  now rewrite IH.
Qed.

Lemma length_format_hex (data : list byte) :
  String.length (format_hex data) = (2 * length data)%nat.
Proof. induction data as [|b data IH]; simpl; [reflexivity | rewrite IH; lia]. Qed.

Lemma format_hex_inj (a : list byte) : forall b,
  format_hex a = format_hex b -> a = b.
Proof.
  induction a as [|x a IH]; intros [|y b] H; try discriminate H; [reflexivity |].
  simpl in H. injection H as Hhi Hlo Hrest.
  pose proof (to_N_lt_256 x) as Hx. pose proof (to_N_lt_256 y) as Hy.
  apply hex_digit_inj in Hhi;
    [| apply N.Div0.div_lt_upper_bound; lia | apply N.Div0.div_lt_upper_bound; lia].
  apply hex_digit_inj in Hlo; [| apply N.mod_lt; lia | apply N.mod_lt; lia].
  f_equal; [| now apply IH].
  apply to_N_inj.
  rewrite (N.div_mod (Byte.to_N x) 16), (N.div_mod (Byte.to_N y) 16) by lia.
  now rewrite Hhi, Hlo.
Qed.

Lemma substring_format_hex (n : nat) (data : list byte) :
  String.substring 0 (2 * n) (format_hex data) = format_hex (take n data).
Proof.
  revert data. induction n as [|n IH]; intros [|b data]; try reflexivity.
  replace (2 * S n)%nat with (S (S (2 * n))) by lia.
  cbn [format_hex take String.substring]. now rewrite IH.
Qed.

Lemma hex_digit_lower_hex (n : N) : cases.lower_hex (hex_digit n) = true.
Proof.
  unfold hex_digit. generalize (N.to_nat n) as k. intros k.
  do 16 (destruct k as [|k]; [reflexivity |]). reflexivity.
Qed.

(** X10. [format_hex] writes every byte as exactly two characters, each a
    decimal digit or a letter from [a] to [f], and different byte strings
    get different texts. *)
Theorem format_hex_is_two_lower_case_digits_per_byte (data : list byte) :
  String.length (format_hex data) = (2 * length data)%nat
  /\ Forall (fun c => cases.lower_hex c = true) (list_ascii_of_string (format_hex data))
  /\ forall other, format_hex data = format_hex other -> data = other.
Proof.
  split; [apply length_format_hex |]. split; [| apply format_hex_inj].
  induction data as [|b data IH]; simpl; [constructor |].
  constructor; [apply hex_digit_lower_hex |].
  constructor; [apply hex_digit_lower_hex | exact IH].
Qed.

(** X11. Two different keys received on the wire never get the same URL
    under the FLAT and the SUBDIRS layout; under the BAZEL layout this
    holds for keys of one length of at most 32 bytes. *)
Theorem keys_on_the_wire_get_urls_of_their_own
    (c : Config) (key1 key2 : list byte) :
  layout c <> BAZEL \/ (length key1 = length key2 /\ (length key1 <= 32)%nat) ->
  build_url c (format_hex key1) = build_url c (format_hex key2) ->
  key1 = key2.
Proof.
  intros Hl H. apply format_hex_inj.
  unfold build_url in H. apply append_inj_l in H.
  destruct Hl as [Hl|[Hlen H32]].
  - now apply (layout_part_tells_keys_apart (layout c)).
  - destruct (layout c) eqn:El.
    + apply bazel_part_tells_keys_of_one_length_apart;
        [rewrite !length_format_hex; lia | rewrite length_format_hex; lia
        | exact H].
    + exact H.
    + now apply (layout_part_tells_keys_apart SUBDIRS).
Qed.

Lemma keys_on_the_wire_get_urls_of_their_own_witness :
  [x0a; xff] = [x0a; xff].
Proof.
  apply (keys_on_the_wire_get_urls_of_their_own
           (config_of BAZEL "https://c.example/") [x0a; xff] [x0a; xff]);
    [right; split; [reflexivity | vm_compute; repeat constructor]
    | reflexivity].
Defined.

(** X12. Under the BAZEL layout a key of 16 to 32 bytes gets the hexadecimal
    text of a 32-byte value: the key, then as many of its first bytes as
    are missing. *)
Theorem bazel_url_of_a_key_of_16_to_32_bytes (c : Config) (key : list byte) :
  layout c = BAZEL ->
  (16 <= length key <= 32)%nat ->
  build_url c (format_hex key)
  = base_url c ++ "ac/" ++ format_hex (key ++ take (32 - length key) key)%list
  /\ length (key ++ take (32 - length key) key)%list = 32%nat.
Proof.
  intros Hl Hlen. split.
  - unfold build_url. rewrite Hl. unfold layout_part, sha256_hex_size, str.substr.
    rewrite length_format_hex.
    destruct (Nat.leb_spec 64 (2 * length key)) as [Hge|Hlt].
    + replace (32 - length key)%nat with 0%nat by lia.
      rewrite take_0, app_nil_r.
      replace 64%nat with (String.length (format_hex key))
        by (rewrite length_format_hex; lia).
      now rewrite substring_whole.
    + replace (64 - 2 * length key)%nat with (2 * (32 - length key))%nat by lia.
      now rewrite substring_format_hex, format_hex_app.
  - rewrite length_app, length_take. lia.
Qed.

Lemma bazel_url_of_a_key_of_16_to_32_bytes_witness :
  build_url (config_of BAZEL "https://c.example/")
    (format_hex (replicate 20 x5a))
  = base_url (config_of BAZEL "https://c.example/") ++ "ac/"
    ++ format_hex (replicate 20 x5a
                   ++ take (32 - length (replicate 20 x5a)) (replicate 20 x5a))%list
  /\ length (replicate 20 x5a
             ++ take (32 - length (replicate 20 x5a)) (replicate 20 x5a))%list
     = 32%nat.
Proof.
  apply (bazel_url_of_a_key_of_16_to_32_bytes
           (config_of BAZEL "https://c.example/") (replicate 20 x5a));
    [reflexivity | vm_compute; split; repeat constructor].
Defined.

(** ** Numbers and messages on the wire *)

Lemma le_value_bound (l : list byte) : (le_value l < 256 ^ N.of_nat (length l))%N.
Proof.
  induction l as [|b l IH]; [simpl; lia |].
  cbn [le_value length]. rewrite Nat2N.inj_succ, N.pow_succ_r'.
  pose proof (to_N_lt_256 b). nia.
Qed.

Lemma byte_of_to_N (b : byte) : byte_of_N (Byte.to_N b) = b.
Proof. apply to_N_inj. apply to_N_byte_of_N. apply to_N_lt_256. Qed.

Lemma le_bytes_le_value (l : list byte) : le_bytes (length l) (le_value l) = l.
Proof.
  induction l as [|b l IH]; [reflexivity |].
  cbn [le_value length le_bytes]. pose proof (to_N_lt_256 b) as Hb.
  replace (Byte.to_N b + 256 * le_value l)%N
    with (Byte.to_N b + le_value l * 256)%N by lia.
  f_equal.
  - apply to_N_inj. rewrite to_N_byte_of_N_mod.
    rewrite N.Div0.mod_add. now apply N.mod_small.
  - rewrite N.div_add by lia.
    rewrite (N.div_small (Byte.to_N b)) by exact Hb. exact IH.
Qed.

(** X13. Reading a 64-bit number at the head of a run of at least eight
    bytes and writing it again gives those eight bytes, in either byte
    order, and the number read is below [2 ^ 64]. *)
Theorem u64_read_then_written_is_the_eight_bytes
    (big_endian : bool) (data : list byte) :
  (8 <= length data)%nat ->
  u64_host_byte_order big_endian (read_u64_host_byte_order big_endian data)
  = take 8 data
  /\ (read_u64_host_byte_order big_endian data < 2 ^ 64)%N.
Proof.
  intros Hlen. unfold u64_host_byte_order, read_u64_host_byte_order.
  assert (H8 : length (take 8 data) = 8%nat) by (rewrite length_take; lia).
  destruct big_endian.
  - assert (Hr : length (rev (take 8 data)) = 8%nat) by now rewrite length_rev.
    split.
    + rewrite <- Hr at 1. now rewrite le_bytes_le_value, rev_involutive.
    + pose proof (le_value_bound (rev (take 8 data))) as Hb.
      rewrite Hr in Hb. exact Hb.
  - split.
    + rewrite <- H8 at 1. apply le_bytes_le_value.
    + pose proof (le_value_bound (take 8 data)) as Hb.
      rewrite H8 in Hb. exact Hb.
Qed.

Lemma u64_read_then_written_is_the_eight_bytes_witness :
  u64_host_byte_order true
    (read_u64_host_byte_order true [x01; x02; x03; x04; x05; x06; x07; x08; x09])
  = take 8 [x01; x02; x03; x04; x05; x06; x07; x08; x09]
  /\ (read_u64_host_byte_order true [x01; x02; x03; x04; x05; x06; x07; x08; x09]
      < 2 ^ 64)%N.
Proof.
  apply (u64_read_then_written_is_the_eight_bytes true
           [x01; x02; x03; x04; x05; x06; x07; x08; x09]).
  vm_compute. repeat constructor.
Defined.

(** X14. An error response is the status byte, one length byte and the
    message: the message sent is the first 255 bytes of the error text at
    most, and the length byte is its exact length. *)
Theorem error_response_carries_at_most_255_bytes_of_text (error : string) :
  exists msg,
    error_blob error = STATUS_ERR :: byte_of_N (N.of_nat (length msg)) :: msg
    /\ Byte.to_N (byte_of_N (N.of_nat (length msg))) = N.of_nat (length msg)
    /\ msg = take 255 (list_byte_of_string error).
Proof.
  assert (Hlen : forall s, length (list_byte_of_string s) = String.length s).
  { intros s. unfold list_byte_of_string. rewrite length_map.
    induction s as [|ch s IH]; simpl; [reflexivity | now rewrite IH]. }
  unfold error_blob, MAX_MSG_LEN.
  exists (take (String.length error `min` 255) (list_byte_of_string error)).
  assert (Hl : length (take (String.length error `min` 255)
                         (list_byte_of_string error))
               = (String.length error `min` 255)%nat)
    by (rewrite length_take, Hlen; lia).
  rewrite Hl. split; [reflexivity |]. split.
  - apply to_N_byte_of_N. lia.
  - destruct (Nat.le_gt_cases (String.length error) 255) as [Hle|Hgt].
    + rewrite Nat.min_l by exact Hle.
      rewrite !take_ge by (rewrite Hlen; lia). reflexivity.
    + rewrite Nat.min_r by lia. reflexivity.
Qed.

(** X15. The answer to a GET that found a value is two blobs handed over in
    a row: a header of nine bytes, the OK status and the length of the value
    as a 64-bit number in host byte order, and then the value itself. *)
Theorem get_answer_announces_the_length_of_the_value
    (big_endian : bool) (response : StorageResponse) (c : ClientConnection) :
  result response = OK ->
  (N.of_nat (length (data response)) < 2 ^ 64)%N ->
  exists header,
    reply big_endian GetReply response c
    = send_response (data response) (send_response header c)
    /\ length header = 9%nat
    /\ hd x00 header = STATUS_OK
    /\ read_u64_host_byte_order big_endian (drop 1 header)
       = N.of_nat (length (data response)).
Proof.
  intros Hok Hsize. exists (get_header big_endian (length (data response))).
  unfold reply. rewrite Hok. split; [reflexivity |]. unfold get_header.
  split; [simpl; now rewrite length_u64_host_byte_order |].
  split; [reflexivity |]. cbn [drop].
  rewrite <- (app_nil_r (u64_host_byte_order _ _)).
  now apply read_u64_of_u64.
Qed.

Lemma get_answer_announces_the_length_of_the_value_witness :
  exists header,
    reply false GetReply (mkResponse OK "" [x41; x42; x43]) (new_connection [])
    = send_response [x41; x42; x43] (send_response header (new_connection []))
    /\ length header = 9%nat
    /\ hd x00 header = STATUS_OK
    /\ read_u64_host_byte_order false (drop 1 header) = 3%N.
Proof.
  apply (get_answer_announces_the_length_of_the_value false
           (mkResponse OK "" [x41; x42; x43]) (new_connection []));
    [reflexivity | vm_compute; reflexivity].
Defined.

(** ** Storage client: how PUT and DELETE requests and failed transfers end *)

(** X16. A PUT or DELETE that completes without transport error hands to
    its callback: OK on every status from 200 to 299; NOOP on 409 and 412
    for a PUT and on 404 for a DELETE; ERROR with message "HTTP <code>" on
    every other status, so on 404 for a PUT and on 409 for a DELETE.  The
    request leaves the registry. *)
Theorem put_and_delete_completion_by_status
    {K : Type} (strerror : Z -> string) (s : StorageClient K)
    (msg : CURLMsg) (req : HttpRequest K) :
  msg_done msg = true ->
  _active_requests s !! easy_handle msg = Some req ->
  operation req = PUT \/ operation req = DELETE ->
  msg_result msg = CURLE_OK ->
  let code := response_code msg in
  let noop := match operation req with
              | PUT => (code = 409 \/ code = 412)%Z
              | _ => (code = 404)%Z
              end in
  exists response,
    handle_msg strerror msg s
    = invoke (callback req) response
        (set_active_requests (delete (easy_handle msg) (_active_requests s)) s)
    /\ data response = response_data req
    /\ ((200 <= code < 300)%Z -> result response = OK /\ error response = "")
    /\ (noop -> result response = NOOP /\ error response = "")
    /\ (~ (200 <= code < 300)%Z -> ~ noop ->
        result response = ERROR /\ error response = http_error code).
Proof.
  intros Hd Hl Hop Hr code noop.
  exists (completion strerror req msg). split.
  { unfold handle_msg. now rewrite Hd, Hl. }
  unfold completion. rewrite Hr. fold code. cbn [Z.eqb CURLE_OK negb].
  subst noop.
  destruct Hop as [Hop|Hop]; rewrite Hop;
    destruct (Z.leb_spec 200 code), (Z.ltb_spec code 300); cbn [andb];
    try (destruct (Z.eqb_spec code 412), (Z.eqb_spec code 409); cbn [orb]);
    try (destruct (Z.eqb_spec code 404));
    cbn [data result error];
    (split; [reflexivity |]);
    (split; [intros ?; first [lia | split; reflexivity] |]);
    (split; [intros ?; first [lia | split; reflexivity]
            | intros ? ?; first [lia | tauto | split; reflexivity]]).
Qed.

Lemma put_and_delete_completion_by_status_witness :
  exists response,
    handle_msg strerror (done 0 412) cases.put_in_flight
    = (set_active_requests ∅ cases.put_in_flight, [(7%nat, response)])
    /\ result response = NOOP.
Proof.
  destruct (put_and_delete_completion_by_status strerror cases.put_in_flight
              (done 0 412) cases.put_request
              eq_refl eq_refl (or_introl eq_refl) eq_refl)
    as (response & Hrun & _ & _ & Hnoop & _).
  exists response. split; [| exact (proj1 (Hnoop (or_intror eq_refl)))].
  rewrite Hrun. reflexivity.
Defined.

(** X17. A transfer that ends with a transport error hands ERROR to the
    caller's continuation whatever the operation and the HTTP status: the
    message is libcurl's error buffer, or [curl_easy_strerror] of the code
    when the buffer is empty.  This also holds for the HEAD probe of a PUT
    without overwrite, after which no PUT is issued. *)
Theorem transport_error_reaches_the_caller
    {K : Type} (strerror : Z -> string) (s : StorageClient K)
    (msg : CURLMsg) (req : HttpRequest K) (k : K) :
  msg_done msg = true ->
  _active_requests s !! easy_handle msg = Some req ->
  msg_result msg <> CURLE_OK ->
  (callback req = Caller k
   \/ exists hex_key payload, callback req = HeadCheck hex_key payload (Caller k)) ->
  handle_msg strerror msg s
  = (set_active_requests (delete (easy_handle msg) (_active_requests s)) s,
     [(k, {| result := ERROR;
             error := if str.empty (error_buf msg)
                      then strerror (msg_result msg) else error_buf msg;
             data := response_data req |})]).
Proof.
  intros Hd Hl Hr Hc. unfold handle_msg. rewrite Hd, Hl. cbn [negb].
  assert (Hcompl : completion strerror req msg
                   = {| result := ERROR;
                        error := if str.empty (error_buf msg)
                                 then strerror (msg_result msg) else error_buf msg;
                        data := response_data req |}).
  { unfold completion. destruct (Z.eqb_spec (msg_result msg) CURLE_OK);
      [contradiction | reflexivity]. }
  rewrite Hcompl.
  destruct Hc as [Hc|(hex_key & payload & Hc)]; rewrite Hc; reflexivity.
Qed.

Lemma transport_error_reaches_the_caller_witness :
  handle_msg strerror (cases.failed 0 7 "Connection refused") head_in_flight
  = (set_active_requests ∅ head_in_flight,
     [(7%nat, {| result := ERROR; error := "Connection refused"; data := [] |})]).
Proof.
  apply (transport_error_reaches_the_caller strerror head_in_flight
           (cases.failed 0 7 "Connection refused") head_request 7%nat
           eq_refl eq_refl);
    [discriminate | right; exists "ab", [x2a]; reflexivity].
Defined.

(** ** Storage client: whole operations *)

Section operations.
Context {K : Type} (strerror : Z -> string).
Implicit Types (s : StorageClient K) (req : HttpRequest K) (k : K).

Lemma run_cons ev evs s :
  run strerror (ev :: evs) s
  = (fst (run strerror evs (fst (step strerror ev s))),
     (snd (step strerror ev s)
      ++ snd (run strerror evs (fst (step strerror ev s))))%list).
Proof.
  cbn [run]. destruct (step strerror ev s) as [s1 calls1]. cbn [fst snd].
  now destruct (run strerror evs s1) as [s2 calls2].
Qed.

Lemma check_multi_info_one msg s :
  check_multi_info strerror [msg] s
  = (fst (handle_msg strerror msg s), snd (handle_msg strerror msg s)).
Proof.
  cbn [check_multi_info]. destruct (handle_msg strerror msg s) as [s1 calls1].
  now rewrite app_nil_r.
Qed.

(** The request [get], [do_put] and [remove] register when they get their
    handle. *)
Lemma started s req :
  hd true (easy_init_script s) = true ->
  create_easy_handle req s
  = (Some (fresh (dom (_active_requests s)),
           storage.set_headers (request_headers (_config s)) req),
     snd (curl_easy_init s)).
Proof. apply create_easy_handle_some. Qed.

Lemma curl_easy_init_script s :
  easy_init_script (snd (curl_easy_init s)) = tl (easy_init_script s).
Proof.
  unfold curl_easy_init.
  destruct (easy_init_script s) eqn:E; simpl; [exact E | reflexivity].
Qed.

Lemma run_bodies h chunks rest : forall s,
  run strerror ((EvBody h <$> chunks) ++ rest)%list s
  = run strerror rest (cases.bodies h chunks s).
Proof.
  induction chunks as [|chunk chunks IH]; intros s; [reflexivity |].
  cbn [fmap list_fmap app]. rewrite run_cons. cbn [step fst snd].
  rewrite IH.
  change (cases.bodies h (chunk :: chunks) s)
    with (cases.bodies h chunks (write_callback h chunk s)).
  now destruct (run strerror rest _).
Qed.

Lemma bodies_registry h chunks : forall s req m,
  _active_requests s = <[h := req]> m ->
  _active_requests (cases.bodies h chunks s)
  = <[h := set_response_data (response_data req ++ concat chunks)%list req]> m.
Proof.
  induction chunks as [|chunk chunks IH]; intros s req m Hs.
  - cbn [cases.bodies foldl concat]. rewrite app_nil_r, Hs. now destruct req.
  - change (cases.bodies h (chunk :: chunks) s)
      with (cases.bodies h chunks (write_callback h chunk s)).
    cbn [concat].
    rewrite (IH (write_callback h chunk s)
               (set_response_data (response_data req ++ chunk)%list req) m).
    + cbn [set_response_data response_data]. now rewrite app_assoc.
    + unfold write_callback. cbn [set_active_requests _active_requests].
      rewrite Hs, alter_insert_eq. reflexivity.
Qed.

End operations.

(** X18. A GET that gets its handle, whose response body then arrives in
    any number of chunks and which completes with status 200, hands OK with
    the chunks joined in their order of arrival to the continuation, once;
    afterwards the registry of requests in flight is as it was before. *)
Theorem get_hands_over_the_body_chunks_in_order
    {K : Type} (strerror : Z -> string) (s : StorageClient K)
    (hex_key : string) (k : K) (chunks : list (list byte)) (msg : CURLMsg) :
  hd true (easy_init_script s) = true ->
  msg_done msg = true ->
  easy_handle msg = fresh (dom (_active_requests s)) ->
  msg_result msg = CURLE_OK ->
  response_code msg = 200%Z ->
  let r := run strerror
             (EvGet hex_key k
              :: (EvBody (easy_handle msg) <$> chunks) ++ [EvDone [msg]])%list s in
  snd r = [(k, {| result := OK; error := ""; data := concat chunks |})]
  /\ _active_requests (fst r) = _active_requests s.
Proof.
  intros Hi Hd Hh Hr Hc r. subst r.
  set (req := storage.set_headers (request_headers (_config s))
                {| operation := GET; storage.url := build_url (_config s) hex_key;
                   request_data := []; response_data := [];
                   callback := Caller k; storage.headers := [] |}).
  set (s1 := add_request (fresh (dom (_active_requests s))) req
               (snd (curl_easy_init s))).
  assert (Hget : get hex_key (Caller k) s = (s1, [])).
  { unfold get. rewrite started by exact Hi. reflexivity. }
  rewrite run_cons. cbn [step]. rewrite Hget. cbn [fst snd app].
  rewrite run_bodies, run_cons. cbn [step run fst snd].
  rewrite app_nil_r, check_multi_info_one. cbn [fst snd].
  assert (Hreg : _active_requests (cases.bodies (easy_handle msg) chunks s1)
                 = <[easy_handle msg
                     := set_response_data (concat chunks) req]>
                     (_active_requests s)).
  { rewrite (bodies_registry (easy_handle msg) chunks s1 req (_active_requests s)).
    - reflexivity.
    - subst s1. unfold add_request. cbn [_active_requests].
      now rewrite curl_easy_init_requests, Hh. }
  rewrite (handle_msg_caller strerror _ msg
             (set_response_data (concat chunks) req) k Hd);
    [| rewrite Hreg; apply lookup_insert_eq | reflexivity].
  cbn [fst snd set_active_requests _active_requests]. split.
  - unfold completion. rewrite Hr, Hc. reflexivity.
  - rewrite Hreg, Hh. apply delete_insert_id, fresh_handle_unused.
Qed.

Lemma get_hands_over_the_body_chunks_in_order_witness :
  let r := run strerror
             [EvGet "abcdef" 7%nat; EvBody 0 [x41]; EvBody 0 [x42; x43];
              EvDone [done 0 200]] (storage_client SUBDIRS []) in
  snd r = [(7%nat, {| result := OK; error := ""; data := [x41; x42; x43] |})]
  /\ _active_requests (fst r) = ∅.
Proof.
  apply (get_hands_over_the_body_chunks_in_order strerror
           (storage_client SUBDIRS []) "abcdef" 7%nat [[x41]; [x42; x43]]
           (done 0 200));
    reflexivity.
Defined.

(** X19. A PUT without overwrite whose HEAD probe gets its handle and
    completes without transport error.  On status 200 the continuation gets
    NOOP and no PUT request is issued.  On status 404 a PUT request for the
    same URL with the payload is issued and the continuation has to wait
    for it; when no handle can be made for that PUT, the continuation gets
    the handle failure instead.  On any other status the continuation gets
    ERROR with message "HTTP <code>" and no PUT request is issued. *)
Theorem put_without_overwrite_goes_by_the_status_of_its_probe
    {K : Type} (strerror : Z -> string) (s : StorageClient K)
    (hex_key : string) (payload : list byte) (k : K) (msg : CURLMsg) :
  hd true (easy_init_script s) = true ->
  msg_done msg = true ->
  easy_handle msg = fresh (dom (_active_requests s)) ->
  msg_result msg = CURLE_OK ->
  let h := easy_handle msg in
  let target := build_url (_config s) hex_key in
  let r := run strerror [EvPut hex_key payload false k; EvDone [msg]] s in
  (response_code msg = 200%Z ->
   snd r = [(k, {| result := NOOP; error := ""; data := [] |})]
   /\ multi_added (fst r) = (multi_added s ++ [(h, HEAD, target)])%list
   /\ _active_requests (fst r) = _active_requests s)
  /\ (response_code msg = 404%Z ->
      (hd true (tl (easy_init_script s)) = true ->
       snd r = []
       /\ multi_added (fst r)
          = (multi_added s ++ [(h, HEAD, target); (h, PUT, target)])%list
       /\ _active_requests (fst r)
          = <[h := {| operation := PUT; storage.url := target;
                      request_data := payload; response_data := [];
                      callback := Caller k;
                      storage.headers := request_headers (_config s) |}]>
              (_active_requests s))
      /\ (hd true (tl (easy_init_script s)) = false ->
          snd r = [(k, handle_failure)]
          /\ multi_added (fst r) = (multi_added s ++ [(h, HEAD, target)])%list
          /\ _active_requests (fst r) = _active_requests s))
  /\ (response_code msg <> 200%Z -> response_code msg <> 404%Z ->
      snd r = [(k, {| result := ERROR; error := http_error (response_code msg);
                      data := [] |})]
      /\ multi_added (fst r) = (multi_added s ++ [(h, HEAD, target)])%list
      /\ _active_requests (fst r) = _active_requests s).
Proof.
  intros Hi Hd Hh Hr h target r. subst r.
  set (req := storage.set_headers (request_headers (_config s))
                {| operation := HEAD; storage.url := target;
                   request_data := []; response_data := [];
                   callback := HeadCheck hex_key payload (Caller k);
                   storage.headers := [] |}).
  set (s1 := add_request h req (snd (curl_easy_init s))).
  assert (Hput : put hex_key payload false (Caller k) s = (s1, [])).
  { unfold put. rewrite started by exact Hi. subst s1 h. now rewrite Hh. }
  rewrite run_cons. cbn [step]. rewrite Hput. cbn [fst snd app].
  rewrite run_cons. cbn [step run fst snd].
  rewrite app_nil_r, check_multi_info_one. cbn [fst snd].
  assert (Hl : _active_requests s1 !! easy_handle msg = Some req)
    by apply lookup_insert_eq.
  rewrite (handle_msg_head_check strerror s1 msg req hex_key payload k Hd Hl eq_refl).
  set (s2 := set_active_requests (delete (easy_handle msg) (_active_requests s1)) s1).
  assert (Hreg : _active_requests s2 = _active_requests s).
  { subst s2 s1. cbn [set_active_requests add_request _active_requests].
    rewrite curl_easy_init_requests. apply delete_insert_id.
    fold h. subst h. rewrite Hh. apply fresh_handle_unused. }
  assert (Hadded : multi_added s2 = (multi_added s ++ [(h, HEAD, target)])%list).
  { subst s2 s1. cbn [set_active_requests add_request multi_added].
    now rewrite curl_easy_init_added. }
  assert (Hscript : easy_init_script s2 = tl (easy_init_script s)).
  { subst s2 s1. cbn [set_active_requests add_request easy_init_script].
    apply curl_easy_init_script. }
  assert (Hconfig : _config s2 = _config s).
  { subst s2 s1. cbn [set_active_requests add_request _config].
    apply curl_easy_init_config. }
  unfold completion. rewrite Hr. cbn [Z.eqb CURLE_OK negb operation req
    storage.set_headers].
  split; [| split].
  - intros ->. cbn [Z.eqb Pos.eqb result fst snd]. now rewrite Hreg, Hadded.
  - intros ->. cbn [Z.eqb Pos.eqb result fst snd]. split.
    + intros Hi2. unfold put, do_put, do_put_with.
      rewrite started by (rewrite Hscript; exact Hi2).
      cbn [fst snd add_request multi_added _active_requests operation
           storage.url storage.set_headers].
      rewrite curl_easy_init_added, curl_easy_init_requests, Hadded, Hreg, Hconfig.
      fold target. rewrite <- Hh. fold h.
      split; [reflexivity |]. split; [now rewrite <- app_assoc | reflexivity].
    + intros Hi2. unfold put, do_put, do_put_with.
      rewrite create_easy_handle_none by (rewrite Hscript; exact Hi2).
      cbn [invoke fst snd].
      rewrite curl_easy_init_added, curl_easy_init_requests, Hadded, Hreg.
      now split.
  - intros H200 H404.
    destruct (Z.eqb_spec (response_code msg) 200); [contradiction |].
    destruct (Z.eqb_spec (response_code msg) 404); [contradiction |].
    cbn [result fst snd response_data]. now rewrite Hreg, Hadded.
Qed.

Lemma put_without_overwrite_goes_by_the_status_of_its_probe_witness :
  let r := run strerror [EvPut "ab" [x2a] false 7%nat; EvDone [done 0 404]]
             (storage_client FLAT []) in
  snd r = []
  /\ multi_added (fst r)
     = [(0%nat, HEAD, "https://c.example/ab"); (0%nat, PUT, "https://c.example/ab")]
  /\ _active_requests (fst r) = <[0%nat := cases.put_request]> ∅.
Proof.
  apply (proj1 (proj1 (proj2
           (put_without_overwrite_goes_by_the_status_of_its_probe strerror
              (storage_client FLAT []) "ab" [x2a] 7%nat (done 0 404)
              eq_refl eq_refl eq_refl eq_refl))
           eq_refl) eq_refl).
Defined.

(** ** Storage client: what holds of the requests in flight *)

Section registry.
Context {K : Type} (strerror : Z -> string).
Implicit Types (s : StorageClient K) (req : HttpRequest K) (k : K).

Lemma well_formed_curl_easy_init c s :
  inflight.all_well_formed c s ->
  inflight.all_well_formed c (snd (curl_easy_init s)).
Proof.
  intros [Hc Hall]. split.
  - now rewrite curl_easy_init_config.
  - intros h req. rewrite curl_easy_init_requests. apply Hall.
Qed.

Lemma well_formed_add_request c s h req :
  inflight.all_well_formed c s -> inflight.well_formed c req ->
  inflight.all_well_formed c (add_request h req s).
Proof.
  intros [Hc Hall] Hreq. split; [exact Hc |].
  intros h' req'. unfold add_request. cbn [_active_requests].
  rewrite lookup_insert. destruct (decide (h = h')).
  - intros [= <-]. exact Hreq.
  - apply Hall.
Qed.

Lemma well_formed_delete c s h :
  inflight.all_well_formed c s ->
  inflight.all_well_formed c
    (set_active_requests (delete h (_active_requests s)) s).
Proof.
  intros [Hc Hall]. split; [exact Hc |].
  intros h' req. cbn [set_active_requests _active_requests].
  rewrite lookup_delete_Some. intros [_ Hl]. now apply (Hall h').
Qed.

(** What [get], [put], [do_put] and [remove] do after they have built their
    request. *)
Lemma well_formed_start c s req k :
  inflight.all_well_formed c s ->
  inflight.well_formed c (storage.set_headers (request_headers c) req) ->
  inflight.all_well_formed c
    (fst match create_easy_handle req s with
         | (None, s') => invoke (Caller k) handle_failure s'
         | (Some (handle, request'), s') => (add_request handle request' s', [])
         end).
Proof.
  intros Hs Hreq. unfold create_easy_handle.
  pose proof (well_formed_curl_easy_init c s Hs) as Hs'.
  destruct Hs as [Hc _].
  destruct (curl_easy_init s) as [[handle|] s']; cbn [fst snd invoke] in *.
  - apply well_formed_add_request; [exact Hs' | now rewrite Hc].
  - exact Hs'.
Qed.

Lemma well_formed_get c s hex_key k :
  inflight.all_well_formed c s ->
  inflight.all_well_formed c (fst (get hex_key (Caller k) s)).
Proof.
  intros Hs. unfold get. apply well_formed_start; [exact Hs |].
  destruct Hs as [-> _]. split; [reflexivity |]. split; eexists; reflexivity.
Qed.

Lemma well_formed_remove c s hex_key k :
  inflight.all_well_formed c s ->
  inflight.all_well_formed c (fst (remove hex_key (Caller k) s)).
Proof.
  intros Hs. unfold remove. apply well_formed_start; [exact Hs |].
  destruct Hs as [-> _]. split; [reflexivity |]. split; eexists; reflexivity.
Qed.

Lemma well_formed_do_put c s hex_key payload k :
  inflight.all_well_formed c s ->
  inflight.all_well_formed c (fst (do_put hex_key payload (Caller k) s)).
Proof.
  intros Hs. unfold do_put, do_put_with.
  apply (well_formed_start c s _ k); [exact Hs |].
  destruct Hs as [-> _]. split; [reflexivity |]. split; eexists; reflexivity.
Qed.

Lemma well_formed_put c s hex_key payload overwrite k :
  inflight.all_well_formed c s ->
  inflight.all_well_formed c (fst (put hex_key payload overwrite (Caller k) s)).
Proof.
  intros Hs. unfold put. destruct overwrite; [now apply well_formed_do_put |].
  apply (well_formed_start c s _ k); [exact Hs |].
  destruct Hs as [-> _]. split; [reflexivity |].
  split; [eexists; reflexivity |]. cbn [operation storage.set_headers].
  exists hex_key, payload, k. split; reflexivity.
Qed.

Lemma well_formed_write_callback c s h bytes :
  inflight.all_well_formed c s ->
  inflight.all_well_formed c (write_callback h bytes s).
Proof.
  intros [Hc Hall]. split; [exact Hc |].
  intros h' req. unfold write_callback.
  cbn [set_active_requests _active_requests].
  destruct (decide (h = h')) as [<-|Hne].
  - rewrite lookup_alter_eq.
    destruct (_active_requests s !! h) as [req0|] eqn:Hl; [| discriminate].
    intros [= <-]. exact (Hall h req0 Hl).
  - rewrite lookup_alter_ne by exact Hne. apply Hall.
Qed.

Lemma well_formed_handle_msg c s msg :
  inflight.all_well_formed c s ->
  inflight.all_well_formed c (fst (handle_msg strerror msg s)).
Proof.
  intros Hs. unfold handle_msg.
  destruct (msg_done msg); cbn [negb]; [| exact Hs].
  destruct (_active_requests s !! easy_handle msg) as [req|] eqn:Hl; [| exact Hs].
  pose proof (well_formed_delete c s (easy_handle msg) Hs) as Hs'.
  destruct Hs as [_ Hall].
  destruct (Hall _ _ Hl) as (_ & _ & Hcb).
  destruct (operation req) eqn:Hop;
    try (destruct Hcb as [k ->]; exact Hs').
  destruct Hcb as (hex_key & payload & k & -> & _). cbn [invoke].
  destruct (result (completion strerror req msg)); try exact Hs'.
  now apply well_formed_do_put.
Qed.

Lemma well_formed_check_multi_info c msgs : forall s,
  inflight.all_well_formed c s ->
  inflight.all_well_formed c (fst (check_multi_info strerror msgs s)).
Proof.
  induction msgs as [|msg msgs IH]; intros s Hs; [exact Hs |].
  cbn [check_multi_info].
  pose proof (well_formed_handle_msg c s msg Hs) as H1.
  destruct (handle_msg strerror msg s) as [s1 calls1]. cbn [fst] in H1.
  specialize (IH s1 H1).
  now destruct (check_multi_info strerror msgs s1) as [s2 calls2].
Qed.

Lemma well_formed_step c ev s :
  inflight.all_well_formed c s ->
  inflight.all_well_formed c (fst (step strerror ev s)).
Proof.
  intros Hs. destruct ev; cbn [step fst].
  - now apply well_formed_get.
  - now apply well_formed_put.
  - now apply well_formed_remove.
  - now apply well_formed_write_callback.
  - now apply well_formed_check_multi_info.
Qed.

End registry.

(** X20. Under every sequence of operations, body deliveries and
    completions the client keeps its configuration, and every request in
    flight is one the client made for a caller: it targets the URL that
    [build_url] gives for some key, carries the header list of the
    configuration, and its callback is the caller's continuation, inside
    the probe of a PUT without overwrite exactly for a HEAD request. *)
Theorem requests_in_flight_stay_as_the_client_made_them
    {K : Type} (strerror : Z -> string) (evs : list (Event K))
    (c : Config) (s : StorageClient K) :
  inflight.all_well_formed c s ->
  inflight.all_well_formed c (fst (run strerror evs s)).
Proof.
  revert s. induction evs as [|ev evs IH]; intros s Hs; [exact Hs |].
  rewrite run_cons. cbn [fst]. apply IH. now apply well_formed_step.
Qed.

Lemma requests_in_flight_stay_as_the_client_made_them_witness :
  inflight.all_well_formed (config_of FLAT "https://c.example/")
    (fst (run strerror [EvPut "ab" [x2a] false 7%nat; EvDone [done 0 404];
                        EvGet "cd" 8%nat]
            (storage_client FLAT []))).
Proof.
  apply (requests_in_flight_stay_as_the_client_made_them strerror
           [EvPut "ab" [x2a] false 7%nat; EvDone [done 0 404]; EvGet "cd" 8%nat]
           (config_of FLAT "https://c.example/") (storage_client FLAT [])).
  split; [reflexivity |]. intros handle req Hl. simpl in Hl.
  rewrite lookup_empty in Hl. discriminate Hl.
Defined.

(** ** Storage client: the upload side of a PUT *)

Lemma read_callback_copies (size nmemb : N) (request : upload.Upload) :
  let len := N.of_nat (length (upload.request_data request)) in
  let pos := upload.upload_pos request in
  let copied := N.min (len - pos) ((size * nmemb) mod 2 ^ 64) in
  (pos <= len < 2 ^ 64)%N ->
  upload.read_callback size nmemb request
  = (take (N.to_nat copied) (drop (N.to_nat pos) (upload.request_data request)),
     {| upload.request_data := upload.request_data request;
        upload.upload_pos := (pos + copied)%N |}).
Proof.
  intros len pos copied Hpos. unfold upload.read_callback.
  fold len pos.
  assert (Hrem : (if (pos <? len)%N then (len - pos)%N else 0%N) = (len - pos)%N).
  { destruct (N.ltb_spec pos len); lia. }
  rewrite Hrem. fold copied.
  destruct (N.ltb_spec 0 copied) as [Hgt|Hle].
  - rewrite N.mod_small by (subst copied; lia). reflexivity.
  - assert (H0 : copied = 0%N) by lia. rewrite H0, N.add_0_r.
    cbn [N.to_nat take]. subst pos. now destruct request.
Qed.

Lemma read_all_copies (asks : list (N * N)) : forall request : upload.Upload,
  let len := N.of_nat (length (upload.request_data request)) in
  let pos := upload.upload_pos request in
  let copied := N.min (len - pos) (upload.room asks) in
  (pos <= len < 2 ^ 64)%N ->
  concat (fst (upload.read_all asks request))
  = take (N.to_nat copied) (drop (N.to_nat pos) (upload.request_data request))
  /\ snd (upload.read_all asks request)
     = {| upload.request_data := upload.request_data request;
          upload.upload_pos := (pos + copied)%N |}.
Proof.
  induction asks as [|[size nmemb] asks IH]; intros request len pos copied Hpos.
  - subst copied. cbn [upload.room foldr upload.read_all fst snd concat].
    rewrite N.min_0_r, N.add_0_r. split; [reflexivity |].
    subst pos. now destruct request.
  - cbn [upload.read_all].
    rewrite (read_callback_copies size nmemb request Hpos). fold len pos.
    set (first := N.min (len - pos) ((size * nmemb) mod 2 ^ 64)).
    set (request' := {| upload.request_data := upload.request_data request;
                        upload.upload_pos := (pos + first)%N |}).
    specialize (IH request'). cbn zeta in IH.
    cbn [upload.request_data upload.upload_pos request'] in IH. fold len in IH.
    destruct IH as [IHc IHr]; [subst first; lia |].
    destruct (upload.read_all asks request') as [chunks request''].
    cbn [fst snd] in *. cbn [concat].
    assert (Hsum : copied = (first + N.min (len - (pos + first)) (upload.room asks))%N).
    { subst copied first. cbn [upload.room foldr fst snd].
      fold (upload.room asks). lia. }
    split.
    + rewrite IHc, Hsum, !N2Nat.inj_add, <- drop_drop.
      apply take_take_drop.
    + rewrite IHr, Hsum. f_equal. lia.
Qed.

(** X21. The upload of a PUT hands the payload to libcurl front to back:
    over any series of [read_callback] calls the chunks copied are, joined
    in order, the first bytes of the payload, as many as there was room for
    and no more than the payload has; the position in the request is their
    number, and the payload itself is untouched. *)
Theorem upload_copies_the_payload_front_to_back
    (data : list byte) (asks : list (N * N)) :
  (N.of_nat (length data) < 2 ^ 64)%N ->
  let r := upload.read_all asks
             {| upload.request_data := data; upload.upload_pos := 0 |} in
  let copied := N.min (N.of_nat (length data)) (upload.room asks) in
  concat (fst r) = take (N.to_nat copied) data
  /\ upload.upload_pos (snd r) = copied
  /\ upload.request_data (snd r) = data
  /\ ((N.of_nat (length data) <= upload.room asks)%N -> concat (fst r) = data).
Proof.
  intros Hlen r copied.
  destruct (read_all_copies asks
              {| upload.request_data := data; upload.upload_pos := 0 |})
    as [Hc Hr].
  { cbn [upload.request_data upload.upload_pos]. lia. }
  cbn [upload.request_data upload.upload_pos] in Hc, Hr.
  rewrite N.sub_0_r, N.add_0_l in Hr. rewrite N.sub_0_r in Hc.
  cbn [N.to_nat drop] in Hc. fold r in Hc, Hr. fold copied in Hc, Hr.
  split; [exact Hc |]. rewrite Hr. cbn [upload.upload_pos upload.request_data].
  split; [reflexivity |]. split; [reflexivity |].
  intros Hroom. rewrite Hc. apply take_ge. subst copied. lia.
Qed.

Lemma upload_copies_the_payload_front_to_back_witness :
  let r := upload.read_all [(1, 2); (1, 0); (1, 16)]%N
             {| upload.request_data := [x41; x42; x43; x44; x45];
                upload.upload_pos := 0 |} in
  fst r = [[x41; x42]; []; [x43; x44; x45]]
  /\ concat (fst r) = [x41; x42; x43; x44; x45]
  /\ upload.upload_pos (snd r) = 5%N.
Proof.
  pose proof (upload_copies_the_payload_front_to_back
                [x41; x42; x43; x44; x45] [(1, 2); (1, 0); (1, 16)]%N
                ltac:(vm_compute; reflexivity)) as (Hc & Hp & _ & _).
  split; [reflexivity |]. split; [exact Hc | exact Hp].
Defined.

(** ** Request framing: streams of records *)

Section streams.
Variable big_endian : bool.
Implicit Types (srv : IpcServer) (r : spec.Request) (rs : list spec.Request).

Lemma with_read_buf_same srv : wire.with_read_buf (read_buf (client srv)) srv = srv.
Proof. unfold wire.with_read_buf. rewrite set_read_buf_same. now destruct srv. Qed.

Lemma send_response_set_read_buf blob buf c :
  send_response blob (set_read_buf buf c) = set_read_buf buf (send_response blob c).
Proof. apply (write_step_set_read_buf (Send blob)). Qed.

Lemma reply_set_read_buf k response buf c :
  reply big_endian k response (set_read_buf buf c)
  = set_read_buf buf (reply big_endian k response c).
Proof.
  unfold reply, send_simple_response.
  destruct k, (result response); rewrite ?send_response_set_read_buf; reflexivity.
Qed.

Lemma deliver_set_read_buf calls : forall buf c,
  deliver big_endian calls (set_read_buf buf c)
  = set_read_buf buf (deliver big_endian calls c).
Proof.
  induction calls as [|call calls IH]; intros buf c; [reflexivity |].
  unfold deliver in *. cbn [foldl]. rewrite reply_set_read_buf. apply IH.
Qed.

Lemma served_with_read_buf buf srv r :
  wire.served big_endian (wire.with_read_buf buf srv) r
  = wire.with_read_buf buf (wire.served big_endian srv r).
Proof.
  unfold wire.served, wire.with_read_buf.
  cbn [client _storage_client loop_stopped].
  now rewrite deliver_set_read_buf.
Qed.

Lemma with_read_buf_twice buf1 buf2 srv :
  wire.with_read_buf buf1 (wire.with_read_buf buf2 srv) = wire.with_read_buf buf1 srv.
Proof. reflexivity. Qed.

Lemma foldl_served_with_read_buf rs : forall buf srv,
  foldl (wire.served big_endian) (wire.with_read_buf buf srv) rs
  = wire.with_read_buf buf (foldl (wire.served big_endian) srv rs).
Proof.
  induction rs as [|r rs IH]; intros buf srv; [reflexivity |].
  cbn [foldl]. rewrite served_with_read_buf. apply IH.
Qed.

(** One loop turn on a complete record. *)
Lemma process_loop_serves_record turns srv r rest :
  wire.servable r ->
  (N.of_nat (length (spec.record big_endian r ++ rest)) < 2 ^ 64)%N ->
  read_buf (client srv) = (spec.record big_endian r ++ rest)%list ->
  process_loop big_endian (S turns) srv
  = process_loop big_endian turns
      (wire.with_read_buf rest (wire.served big_endian srv r)).
Proof.
  intros [Hkey Hstop] Hsize Hbuf.
  pose proof (decode_complete_record big_endian r rest Hkey Hsize) as Hdec.
  assert (Hdrop : drop (length (spec.record big_endian r)) (read_buf (client srv))
                  = rest) by (rewrite Hbuf; apply drop_app_length).
  cbn [process_loop]. rewrite Hbuf in *.
  destruct (spec.record big_endian r ++ rest)%list as [|b tail] eqn:Hrec.
  { destruct r; discriminate Hrec. }
  rewrite Hdec.
  destruct r as [key|key flags value|key|]; [| | | contradiction];
    cbn [spec.decoded]; f_equal;
    unfold dispatched, wire.with_read_buf, wire.served, wire.schedule;
    cbn [client _storage_client loop_stopped fst snd];
    rewrite read_buf_deliver, Nat2N.id, Hbuf, Hdrop; reflexivity.
Qed.

Lemma process_loop_stuck turns srv :
  wire.partial big_endian (read_buf (client srv)) ->
  process_loop big_endian turns srv = Returns srv.
Proof.
  intros (r & n & [Hkey Hstop] & Hsize & Hn & Hbuf).
  destruct n as [|n].
  - destruct turns; [reflexivity |]. cbn [process_loop]. now rewrite Hbuf.
  - apply process_loop_incomplete. rewrite Hbuf.
    apply decode_partial_record; [exact Hkey | exact Hsize | lia].
Qed.

Lemma length_stream_le rs : (length rs <= length (wire.stream big_endian rs))%nat.
Proof.
  induction rs as [|r rs IH]; [reflexivity |].
  unfold wire.stream in *. cbn [fmap list_fmap concat]. rewrite length_app.
  assert (1 <= length (spec.record big_endian r))%nat
    by (destruct r; cbn [spec.record length]; lia).
  cbn [length]. lia.
Qed.

(** The loop on complete records followed by the beginning of one more. *)
Lemma process_loop_framed rs : forall turns srv rest,
  wire.framed big_endian (read_buf (client srv)) rs rest ->
  (length rs <= turns)%nat ->
  process_loop big_endian turns srv
  = Returns (wire.with_read_buf rest (foldl (wire.served big_endian) srv rs)).
Proof.
  induction rs as [|r rs IH]; intros turns srv rest (Hbuf & Hrs & Hrest & Hsize) Hturns.
  - cbn [foldl]. cbn [wire.stream fmap list_fmap concat app] in Hbuf.
    rewrite <- Hbuf, with_read_buf_same. apply process_loop_stuck.
    now rewrite Hbuf.
  - destruct turns as [|turns]; [cbn [length] in Hturns; lia |].
    apply Forall_cons in Hrs as [Hr Hrs].
    unfold wire.stream in Hbuf. cbn [fmap list_fmap concat] in Hbuf.
    rewrite <- app_assoc in Hbuf. fold (wire.stream big_endian rs) in Hbuf.
    rewrite (process_loop_serves_record turns srv r
               (wire.stream big_endian rs ++ rest)%list Hr);
      [| rewrite <- Hbuf; exact Hsize | exact Hbuf].
    rewrite IH with (rest := rest).
    + cbn [foldl]. now rewrite foldl_served_with_read_buf, with_read_buf_twice.
    + refine (conj _ (conj Hrs (conj Hrest _))); [reflexivity |].
      cbn [wire.with_read_buf client read_buf set_read_buf].
      rewrite Hbuf, length_app in Hsize. lia.
    + cbn [length] in Hturns. lia.
Qed.

Lemma process_client_data_framed srv rs rest :
  wire.framed big_endian (read_buf (client srv)) rs rest ->
  process_client_data big_endian srv
  = Returns (wire.with_read_buf rest (foldl (wire.served big_endian) srv rs)).
Proof.
  intros Hf. unfold process_client_data. apply process_loop_framed; [exact Hf |].
  destruct Hf as (-> & _). rewrite length_app.
  pose proof (length_stream_le rs). lia.
Qed.

End streams.

(** X22. Requests sent back to back are served in order in one call of
    [process_client_data]: when the accumulator holds complete GET, PUT and
    REMOVE records followed by the beginning of one more, the call returns
    after the storage call of each complete record, in their order, and
    leaves exactly the incomplete record in the accumulator. *)
Theorem pipelined_requests_are_served_in_order
    (big_endian : bool) (srv : IpcServer) (rs : list spec.Request)
    (rest : list byte) :
  wire.framed big_endian (read_buf (client srv)) rs rest ->
  process_client_data big_endian srv
  = Returns (wire.with_read_buf rest (foldl (wire.served big_endian) srv rs))
  /\ read_buf (client (wire.with_read_buf rest
                        (foldl (wire.served big_endian) srv rs))) = rest.
Proof.
  intros Hf. split; [now apply process_client_data_framed | reflexivity].
Qed.

Lemma pipelined_requests_are_served_in_order_witness :
  process_client_data false (cases.server_holding cases.two_gets_and_a_half)
  = Returns
      (wire.with_read_buf [x00; x02; xcc]
         (foldl (wire.served false)
            (cases.server_holding cases.two_gets_and_a_half)
            [spec.GetRequest [xaa]; spec.GetRequest [xbb]]))
  /\ read_buf
       (client
          (wire.with_read_buf [x00; x02; xcc]
             (foldl (wire.served false)
                (cases.server_holding cases.two_gets_and_a_half)
                [spec.GetRequest [xaa]; spec.GetRequest [xbb]])))
     = [x00; x02; xcc].
Proof.
  apply (pipelined_requests_are_served_in_order false
           (cases.server_holding cases.two_gets_and_a_half)
           [spec.GetRequest [xaa]; spec.GetRequest [xbb]] [x00; x02; xcc]).
  split; [reflexivity |]. split.
  - repeat constructor; simpl; (lia || discriminate).
  - split; [| vm_compute; reflexivity].
    exists (spec.GetRequest [xcc; xdd]), 3%nat.
    split; [split; [simpl; lia | discriminate] |].
    split; [vm_compute; reflexivity |].
    split; [simpl; lia | reflexivity].
Defined.

(** ** Request framing: reads that split the stream *)

Section reads.
Variable big_endian : bool.
Variable strerror : Z -> string.
Implicit Types (srv : IpcServer) (r : spec.Request) (rs : list spec.Request).

Lemma app_eq_app_short {A} (a b c d : list A) :
  (a ++ b = c ++ d)%list -> (length a <= length c)%nat -> a = take (length a) c.
Proof.
  intros H Hl. rewrite <- (take_app_le c d) by exact Hl.
  rewrite <- H. now rewrite take_app_length.
Qed.

Lemma app_eq_app_long {A} (a b c d : list A) :
  (a ++ b = c ++ d)%list -> (length c <= length a)%nat ->
  a = (c ++ drop (length c) a)%list /\ (drop (length c) a ++ b)%list = d.
Proof.
  intros H Hl.
  assert (Hc : c = take (length c) a).
  { symmetry in H. now apply (app_eq_app_short c d a b). }
  split.
  - rewrite Hc at 1. now rewrite take_drop.
  - rewrite <- (drop_app_length c d), <- H.
    now rewrite drop_app_le by exact Hl.
Qed.

(** A beginning of a framed stream is framed itself, and what follows it
    completes the rest of the stream. *)
Lemma framed_split rs : forall a b rest,
  wire.framed big_endian (a ++ b) rs rest ->
  exists rs1 rs2 rest1,
    rs = (rs1 ++ rs2)%list
    /\ wire.framed big_endian a rs1 rest1
    /\ wire.framed big_endian (rest1 ++ b) rs2 rest.
Proof.
  induction rs as [|r rs IH]; intros a b rest (Hbuf & Hrs & Hrest & Hsize).
  - exists [], [], a. split; [reflexivity |].
    cbn [wire.stream fmap list_fmap concat app] in Hbuf.
    assert (Hsize_a : (N.of_nat (length a) < 2 ^ 64)%N)
      by (rewrite length_app in Hsize; lia).
    split; [| now refine (conj _ (conj _ (conj _ _)))].
    refine (conj eq_refl (conj (Forall_nil_2 _) (conj _ Hsize_a))).
    destruct Hrest as (r & n & Hr & Hsz & Hn & Hrest).
    exists r, (length a). refine (conj Hr (conj Hsz (conj _ _))).
    + apply (f_equal length) in Hbuf. rewrite length_app, Hrest, length_take in Hbuf.
      lia.
    + rewrite Hrest in Hbuf.
      assert (Ha : a = take (length a) (take n (spec.record big_endian r))).
      { apply (app_eq_app_short a b _ []); [now rewrite app_nil_r |].
        apply (f_equal length) in Hbuf. rewrite length_app in Hbuf. lia. }
      rewrite take_take in Ha.
      replace (length a `min` n)%nat with (length a) in Ha; [exact Ha |].
      apply (f_equal length) in Hbuf. rewrite length_app, length_take in Hbuf. lia.
  - apply Forall_cons in Hrs as [Hr Hrs].
    unfold wire.stream in Hbuf. cbn [fmap list_fmap concat] in Hbuf.
    rewrite <- app_assoc in Hbuf. fold (wire.stream big_endian rs) in Hbuf.
    destruct (Nat.lt_ge_cases (length a) (length (spec.record big_endian r)))
      as [Hshort|Hlong].
    + exists [], (r :: rs), a. split; [reflexivity |]. split.
      * refine (conj eq_refl (conj (Forall_nil_2 _) (conj _ _)));
          [| rewrite length_app in Hsize; lia].
        exists r, (length a). refine (conj Hr (conj _ (conj Hshort _))).
        -- rewrite Hbuf, length_app in Hsize. lia.
        -- apply (app_eq_app_short a b _ _ Hbuf). lia.
      * refine (conj _ (conj (Forall_cons_2 _ _ _ Hr Hrs) (conj Hrest Hsize))).
        unfold wire.stream. cbn [fmap list_fmap concat].
        now rewrite <- app_assoc.
    + destruct (app_eq_app_long a b _ _ Hbuf Hlong) as [Ha Hb].
      set (a' := drop (length (spec.record big_endian r)) a) in *.
      destruct (IH a' b rest) as (rs1 & rs2 & rest1 & Hrs12 & Hf1 & Hf2).
      { refine (conj Hb (conj Hrs (conj Hrest _))).
        rewrite Ha, <- app_assoc, length_app in Hsize. lia. }
      exists (r :: rs1), rs2, rest1. split; [now rewrite Hrs12 |].
      split; [| exact Hf2].
      destruct Hf1 as (Ha' & Hrs1 & Hrest1 & Hsize1).
      refine (conj _ (conj (Forall_cons_2 _ _ _ Hr Hrs1) (conj Hrest1 _))).
      * rewrite Ha, Ha'. unfold wire.stream. cbn [fmap list_fmap concat].
        now rewrite <- app_assoc.
      * rewrite length_app in Hsize. lia.
Qed.

Lemma on_client_read_framed srv bytes rs rest :
  wire.framed big_endian (read_buf (client srv) ++ bytes) rs rest ->
  on_client_read big_endian bytes srv
  = Returns (wire.with_read_buf rest (foldl (wire.served big_endian) srv rs)).
Proof.
  intros Hf. unfold on_client_read.
  change {| client := set_read_buf (read_buf (client srv) ++ bytes) (client srv);
            _storage_client := _storage_client srv;
            loop_stopped := loop_stopped srv |}
    with (wire.with_read_buf (read_buf (client srv) ++ bytes)%list srv).
  rewrite (process_client_data_framed big_endian _ rs rest) by exact Hf.
  now rewrite foldl_served_with_read_buf, with_read_buf_twice.
Qed.

Lemma reads_framed chunks : forall srv rs rest,
  wire.partial big_endian (read_buf (client srv)) ->
  wire.framed big_endian (read_buf (client srv) ++ concat chunks) rs rest ->
  server_run big_endian strerror (ClientRead <$> chunks) srv
  = Returns (wire.with_read_buf rest (foldl (wire.served big_endian) srv rs)).
Proof.
  induction chunks as [|chunk chunks IH]; intros srv rs rest Hp Hf.
  - cbn [concat] in Hf. rewrite app_nil_r in Hf. cbn [fmap list_fmap server_run].
    rewrite <- (process_client_data_framed big_endian srv rs rest Hf).
    unfold process_client_data. symmetry. now apply process_loop_stuck.
  - cbn [concat] in Hf. rewrite app_assoc in Hf.
    destruct (framed_split rs _ _ rest Hf) as (rs1 & rs2 & rest1 & -> & Hf1 & Hf2).
    cbn [fmap list_fmap server_run server_step].
    rewrite (on_client_read_framed srv chunk rs1 rest1 Hf1).
    rewrite (IH _ rs2 rest).
    + now rewrite foldl_served_with_read_buf, with_read_buf_twice, foldl_app.
    + destruct Hf1 as (_ & _ & Hrest1 & _). exact Hrest1.
    + exact Hf2.
Qed.

End reads.

(** X23. It makes no difference where the reads split the stream of
    requests: when the chunks delivered to [on_client_read], joined, are
    complete GET, PUT and REMOVE records followed by the beginning of one
    more, the server ends up as after one read of all of them, having made
    the storage call of each complete record in order and holding the
    incomplete record in the accumulator. *)
Theorem reads_may_split_the_stream_anywhere
    (big_endian : bool) (strerror : Z -> string) (srv : IpcServer)
    (chunks : list (list byte)) (rs : list spec.Request) (rest : list byte) :
  read_buf (client srv) = [] ->
  wire.framed big_endian (concat chunks) rs rest ->
  server_run big_endian strerror (ClientRead <$> chunks) srv
  = Returns (wire.with_read_buf rest (foldl (wire.served big_endian) srv rs))
  /\ server_run big_endian strerror (ClientRead <$> chunks) srv
     = on_client_read big_endian (concat chunks) srv.
Proof.
  intros Hempty Hf.
  assert (H : server_run big_endian strerror (ClientRead <$> chunks) srv
              = Returns (wire.with_read_buf rest
                           (foldl (wire.served big_endian) srv rs))).
  { apply reads_framed; rewrite Hempty; [| exact Hf].
    exists (spec.GetRequest []), 0%nat.
    split; [split; [simpl; lia | discriminate] |].
    split; [vm_compute; reflexivity |]. split; [simpl; lia | reflexivity]. }
  split; [exact H |]. rewrite H. symmetry.
  apply on_client_read_framed. now rewrite Hempty.
Qed.

Lemma reads_may_split_the_stream_anywhere_witness :
  server_run false strerror
    (ClientRead <$> [[x00; x01]; [xaa; x00]; [x01; xbb; x00; x02; xcc]]) server
  = Returns
      (wire.with_read_buf [x00; x02; xcc]
         (foldl (wire.served false) server
            [spec.GetRequest [xaa]; spec.GetRequest [xbb]]))
  /\ server_run false strerror
       (ClientRead <$> [[x00; x01]; [xaa; x00]; [x01; xbb; x00; x02; xcc]]) server
     = on_client_read false
         (concat [[x00; x01]; [xaa; x00]; [x01; xbb; x00; x02; xcc]]) server.
Proof.
  apply (reads_may_split_the_stream_anywhere false strerror server
           [[x00; x01]; [xaa; x00]; [x01; xbb; x00; x02; xcc]]
           [spec.GetRequest [xaa]; spec.GetRequest [xbb]] [x00; x02; xcc]);
    [reflexivity |].
  split; [reflexivity |]. split.
  - repeat constructor; simpl; (lia || discriminate).
  - split; [| vm_compute; reflexivity].
    exists (spec.GetRequest [xcc; xdd]), 3%nat.
    split; [split; [simpl; lia | discriminate] |].
    split; [vm_compute; reflexivity |].
    split; [simpl; lia | reflexivity].
Defined.

(** ** The connection: what has gone to libuv stays, the greeting first *)

Lemma written_flush_write_queue (c : ClientConnection) :
  written (handle c) `prefix_of` written (handle (flush_write_queue c)).
Proof.
  unfold flush_write_queue. destruct (writing c); [reflexivity |].
  destruct (write_queue c) as [|blob queue]; [reflexivity |].
  unfold uv_write. cbn [handle written].
  destruct (hd 0%Z (uv_write_script (handle c)) =? 0)%Z;
    [apply prefix_app_r |]; reflexivity.
Qed.

Lemma written_write_step (ev : WriteEvent) (c : ClientConnection) :
  written (handle c) `prefix_of` written (handle (write_step ev c)).
Proof.
  destruct ev as [blob|status]; cbn [write_step].
  - apply (written_flush_write_queue
             {| handle := handle c; read_buf := read_buf c;
                write_queue := (write_queue c ++ [blob])%list;
                writing := writing c |}).
  - destruct (write_reqs (handle c)) as [|n]; [reflexivity |].
    apply (written_flush_write_queue
             {| handle := {| uv_write_script := uv_write_script (handle c);
                             written := written (handle c); write_reqs := n |};
                read_buf := read_buf c; write_queue := write_queue c;
                writing := false |}).
Qed.

Lemma written_write_run (evs : list WriteEvent) : forall c : ClientConnection,
  written (handle c) `prefix_of` written (handle (write_run evs c)).
Proof.
  induction evs as [|ev evs IH]; intros c; [reflexivity |].
  cbn [write_run foldl]. etrans; [apply (written_write_step ev) | apply IH].
Qed.



(** ** A request from the socket to the socket *)

Section round_trip.
Variable big_endian : bool.
Variable strerror : Z -> string.
Implicit Types (srv : IpcServer) (c : ClientConnection).

Lemma server_run_cons ev evs srv srv' :
  server_step big_endian strerror ev srv = Returns srv' ->
  server_run big_endian strerror (ev :: evs) srv
  = server_run big_endian strerror evs srv'.
Proof. intros H. cbn [server_run]. now rewrite H. Qed.

Lemma server_run_bodies h chunks rest : forall srv,
  server_run big_endian strerror ((HttpBody h <$> chunks) ++ rest)%list srv
  = server_run big_endian strerror rest
      {| client := client srv;
         _storage_client := cases.bodies h chunks (_storage_client srv);
         loop_stopped := loop_stopped srv |}.
Proof.
  induction chunks as [|chunk chunks IH]; intros srv.
  - cbn [fmap list_fmap app cases.bodies foldl]. now destruct srv.
  - cbn [fmap list_fmap app server_run server_step]. now rewrite IH.
Qed.

Lemma send_response_idle blob c :
  writing c = false -> write_queue c = [] ->
  hd 0%Z (uv_write_script (handle c)) = 0%Z ->
  send_response blob c
  = {| handle := {| uv_write_script := tl (uv_write_script (handle c));
                    written := (written (handle c) ++ [blob])%list;
                    write_reqs := S (write_reqs (handle c)) |};
       read_buf := read_buf c; write_queue := []; writing := true |}.
Proof.
  intros Hw Hq Hs. unfold send_response, flush_write_queue, uv_write.
  cbn [writing write_queue handle read_buf]. now rewrite Hw, Hq, Hs.
Qed.

Lemma send_response_busy blob c :
  writing c = true ->
  send_response blob c
  = {| handle := handle c; read_buf := read_buf c;
       write_queue := (write_queue c ++ [blob])%list; writing := true |}.
Proof.
  intros Hw. unfold send_response, flush_write_queue.
  cbn [writing]. now rewrite Hw.
Qed.

End round_trip.



(** ** The connection: a write that libuv refuses *)



(** ** The log file *)

Lemma length_pad3 (ms : Z) :
  (0 <= ms <= 999)%Z -> String.length (logger.pad3 ms) = 3%nat.
Proof.
  intros Hms.
  assert (Hall : forallb (fun n => String.length (logger.pad3 (Z.of_nat n)) =? 3)%nat
                   (seq 0 1000) = true) by (vm_compute; reflexivity).
  rewrite forallb_forall in Hall.
  specialize (Hall (Z.to_nat ms)). rewrite Z2Nat.id in Hall by lia.
  apply Nat.eqb_eq, Hall, in_seq. lia.
Qed.

(** X27. Without a log file nothing is logged: when CRSH_LOGFILE is unset
    and the logger has not been enabled before, or when CRSH_LOGFILE is
    empty, or when the file cannot be opened by a logger that is not
    enabled, every [LOG] after [init_logger] leaves the logger as it is. *)
Theorem nothing_is_logged_without_a_log_file
    (env : gmap string string) (open_ok : bool) (l : logger.Logger)
    (time : string) (ms : Z) (msg : string) :
  (getenv env "CRSH_LOGFILE" = None /\ logger._enabled l = false)
  \/ getenv env "CRSH_LOGFILE" = Some ""
  \/ (open_ok = false /\ logger.is_open l = false /\ logger._enabled l = false) ->
  logger.LOG time ms msg (logger.init_logger env open_ok l)
  = logger.init_logger env open_ok l.
Proof.
  unfold logger.init_logger, logger.LOG, logger.init.
  intros [[-> He]|[->|(-> & Ho & He)]].
  - now rewrite He.
  - reflexivity.
  - destruct (getenv env "CRSH_LOGFILE") as [path|]; [| now rewrite He].
    destruct (str.empty path); [reflexivity |].
    rewrite Ho. cbn [negb andb orb logger.is_open logger._enabled].
    now rewrite He.
Qed.

Lemma nothing_is_logged_without_a_log_file_witness :
  logger.LOG "2026-01-01T00:00:00" 5 "Shutting down"
    (logger.init_logger ∅ true logger.g_logger)
  = logger.init_logger ∅ true logger.g_logger.
Proof.
  apply (nothing_is_logged_without_a_log_file ∅ true logger.g_logger).
  left. split; reflexivity.
Defined.



(** ** Request framing: what ends a stream of requests *)

Lemma process_loop_serves_records (big_endian : bool) (rs : list spec.Request) :
  forall (turns : nat) (srv : IpcServer) (tail : list byte),
  Forall wire.servable rs ->
  (N.of_nat (length (wire.stream big_endian rs ++ tail)) < 2 ^ 64)%N ->
  read_buf (client srv) = (wire.stream big_endian rs ++ tail)%list ->
  process_loop big_endian (length rs + turns) srv
  = process_loop big_endian turns
      (wire.with_read_buf tail (foldl (wire.served big_endian) srv rs)).
Proof.
  induction rs as [|r rs IH]; intros turns srv tail Hrs Hsize Hbuf.
  - cbn [length Nat.add foldl]. cbn [wire.stream fmap list_fmap concat app] in Hbuf.
    now rewrite <- Hbuf, with_read_buf_same.
  - apply Forall_cons in Hrs as [Hr Hrs].
    unfold wire.stream in Hbuf, Hsize. cbn [fmap list_fmap concat] in Hbuf, Hsize.
    rewrite <- app_assoc in Hbuf, Hsize.
    fold (wire.stream big_endian rs) in Hbuf, Hsize.
    cbn [length Nat.add].
    rewrite (process_loop_serves_record big_endian _ srv r
               (wire.stream big_endian rs ++ tail)%list Hr Hsize Hbuf).
    rewrite (IH turns _ tail);
      [| exact Hrs | rewrite length_app in Hsize; lia | reflexivity].
    cbn [foldl]. now rewrite foldl_served_with_read_buf, with_read_buf_twice.
Qed.




